(** * gym.spaces.Tuple: the product space over an ordered sequence of spaces

    A shallow embedding of [gym/spaces/tuple.py].  Python values are a small
    inductive universe, exceptions are explicit outcomes, and the only
    mutable state (the PRNG of the composite and the PRNGs of its children)
    is threaded through every call, so that an exception leaves behind
    whatever had been mutated before it was raised. *)

From Stdlib Require Import Ascii String ZArith Bool Arith Lia List.
Import ListNotations.

Local Open Scope string_scope.
Local Open Scope list_scope.

(** ** Python values *)

(** The values the methods of [Tuple] inspect: [isinstance] tests against
    [list], [int], [tuple] and [np.ndarray], the test [seed is None], and
    subscripting.  A numpy array is either zero-dimensional (a boxed scalar,
    not iterable) or lists its items along the first axis. *)
#[warnings="-register-all"]
Inductive value : Type :=
| VNone
| VBool (b : bool)
| VInt (z : Z)
| VStr (s : string)
| VTuple (items : list value)
| VList (items : list value)
| VNdarray0 (scalar : Z)
| VNdarray (items : list value).

Inductive exn : Type :=
| TypeError (msg : string)
| IndexError
| ValueError
| AssertionError (msg : string).

Inductive outcome (A : Type) : Type :=
| Ok (a : A)
| Raise (e : exn).
Arguments Ok {A} a.
Arguments Raise {A} e.

Definition bind {A B : Type} (o : outcome A) (k : A -> outcome B) : outcome B :=
  match o with
  | Ok a => k a
  | Raise e => Raise e
  end.

Declare Scope py_scope.
Delimit Scope py_scope with py.
Notation "x <- c ;; k" := (bind c (fun x => k))
  (at level 100, c at next level, right associativity) : py_scope.
Local Open Scope py_scope.

(** [isinstance(v, int)]: [bool] is a subclass of [int]. *)
Definition isinstance_int (v : value) : bool :=
  match v with
  | VInt _ | VBool _ => true
  | _ => false
  end.

(** [v[i]] for a non-negative index [i]. *)
Definition getitem (v : value) (i : nat) : outcome value :=
  match v with
  | VTuple l | VList l | VNdarray l =>
      match nth_error l i with
      | Some x => Ok x
      | None => Raise IndexError
      end
  | VStr s =>
      match String.get i s with
      | Some c => Ok (VStr (String c EmptyString))
      | None => Raise IndexError
      end
  | VNdarray0 _ => Raise IndexError
  | VNone | VBool _ | VInt _ => Raise (TypeError "object is not subscriptable")
  end.

(** [tuple(x)] as [contains] applies it, to a [list] or an [np.ndarray]
    only; iterating a zero-dimensional array is a [TypeError]. *)
Definition promote (x : value) : outcome value :=
  match x with
  | VList l => Ok (VTuple l)
  | VNdarray l => Ok (VTuple l)
  | VNdarray0 _ => Raise (TypeError "iteration over a 0-d array")
  | _ => Ok x
  end.

(** [zip] over the unpacked list of columns: one round takes the next item
    of every column, in order, and the iteration stops at the first column that is exhausted; with no
    column at all it yields nothing. *)
Fixpoint next_all {A : Type} (cols : list (list A)) : option (list A * list (list A)) :=
  match cols with
  | [] => Some ([], [])
  | [] :: _ => None
  | (x :: c) :: rest =>
      match next_all rest with
      | Some (hs, ts) => Some (x :: hs, c :: ts)
      | None => None
      end
  end.

Fixpoint zip_rows {A : Type} (c : list A) (rest : list (list A)) : list (list A) :=
  match c with
  | [] => []
  | x :: c' =>
      match next_all rest with
      | Some (hs, ts) => (x :: hs) :: zip_rows c' ts
      | None => []
      end
  end.

Definition zip_star {A : Type} (cols : list (list A)) : list (list A) :=
  match cols with
  | [] => []
  | c :: rest => zip_rows c rest
  end.

(** ** The Space capability *)

(** What [Tuple] asks of each child: a space is an immutable descriptor [D]
    together with a private PRNG state [S].  [seed] and [sample] read and
    write the PRNG; the other methods only read the descriptor. *)
Class SpaceOps (D S : Type) : Type := {
  sp_seed : D -> value -> S -> outcome (list value) * S;
  sp_sample : D -> S -> outcome value * S;
  sp_contains : D -> value -> outcome bool;
  sp_to_jsonable : D -> list value -> outcome value;
  sp_from_jsonable : D -> value -> outcome (list value);
  sp_eq : D -> D -> bool
}.

(** What [Tuple] asks of its base class and of numpy: [Space.seed] (the
    inherited seeding of the space's own generator, defined in
    [gym/spaces/space.py]), [Generator.choice(a, size, replace)] on that
    generator, and [np.iinfo(int).max]. *)
Class BaseOps (G : Type) : Type := {
  Space_seed : value -> G -> outcome (list value) * G;
  choice : Z -> nat -> bool -> G -> outcome (list Z) * G;
  iinfo_int_max : Z
}.

Module Tuple.
Section Tuple.

Context {D S G : Type} `{SpaceOps D S} `{BaseOps G}.

(** A child object: its descriptor and the current state of its PRNG.  The
    composite has one child object per position; a space object that sits
    at two positions, or in two composites, is the subject of [Shared]. *)
Record child : Type := Child { desc : D; prng : S }.

(** [self]: [self.spaces] and the composite's own generator. *)
Record t : Type := Make { spaces : list child; np_random : G }.

Definition with_prng (c : child) (p : S) : child :=
  {| desc := desc c; prng := p |}.

Definition with_spaces (self : t) (cs : list child) : t :=
  {| spaces := cs; np_random := np_random self |}.

Definition descs (self : t) : list D := map desc (spaces self).

(** [for i, space in enumerate(self.spaces): seeds += space.seed(seed[i])] *)
Fixpoint seed_each (seed : list value) (i : nat) (cs : list child)
    (seeds : list value) : outcome (list value) * list child :=
  match cs with
  | [] => (Ok seeds, [])
  | c :: rest =>
      match nth_error seed i with
      | None => (Raise IndexError, c :: rest)
      | Some s =>
          match sp_seed (desc c) s (prng c) with
          | (Raise e, p) => (Raise e, with_prng c p :: rest)
          | (Ok l, p) =>
              let '(r, rest') := seed_each seed (Datatypes.S i) rest (seeds ++ l) in
              (r, with_prng c p :: rest')
          end
      end
  end.

(** The [try ... except ValueError] around the two calls of [choice]. *)
Definition draw_subseeds (size : nat) (g : G) : outcome (list Z) * G :=
  match choice iinfo_int_max size false g with
  | (Raise ValueError, g') => choice iinfo_int_max size true g'
  | r => r
  end.

(** [for subspace, subseed in zip(self.spaces, subseeds):
       seeds.append(subspace.seed(int(subseed))[0])] *)
Fixpoint seed_subspaces (cs : list child) (subseeds : list Z)
    (seeds : list value) : outcome (list value) * list child :=
  match cs, subseeds with
  | c :: rest, k :: ks =>
      match sp_seed (desc c) (VInt k) (prng c) with
      | (Raise e, p) => (Raise e, with_prng c p :: rest)
      | (Ok [], p) => (Raise IndexError, with_prng c p :: rest)
      | (Ok (first :: _), p) =>
          let '(r, rest') := seed_subspaces rest ks (seeds ++ [first]) in
          (r, with_prng c p :: rest')
      end
  | _, _ => (Ok seeds, cs)
  end.

(** [for space in self.spaces: seeds += space.seed(seed)] with [seed is None] *)
Fixpoint seed_none (cs : list child) (seeds : list value)
    : outcome (list value) * list child :=
  match cs with
  | [] => (Ok seeds, [])
  | c :: rest =>
      match sp_seed (desc c) VNone (prng c) with
      | (Raise e, p) => (Raise e, with_prng c p :: rest)
      | (Ok l, p) =>
          let '(r, rest') := seed_none rest (seeds ++ l) in
          (r, with_prng c p :: rest')
      end
  end.

Definition seed (seed : value) (self : t) : outcome (list value) * t :=
  match seed with
  | VList l =>
      let '(r, cs) := seed_each l 0 (spaces self) [] in
      (r, with_spaces self cs)
  | VInt _ | VBool _ =>
      match Space_seed seed (np_random self) with
      | (Raise e, g) => (Raise e, {| spaces := spaces self; np_random := g |})
      | (Ok seeds, g) =>
          match draw_subseeds (length (spaces self)) g with
          | (Raise e, g') => (Raise e, {| spaces := spaces self; np_random := g' |})
          | (Ok subseeds, g') =>
              let '(r, cs) := seed_subspaces (spaces self) subseeds seeds in
              (r, {| spaces := cs; np_random := g' |})
          end
      end
  | VNone =>
      let '(r, cs) := seed_none (spaces self) [] in
      (r, with_spaces self cs)
  | _ =>
      (Raise (TypeError "Passed seed not of an expected type: list or int or None"),
       self)
  end.

(** [tuple(space.sample() for space in self.spaces)] *)
Fixpoint sample_each (cs : list child) : outcome (list value) * list child :=
  match cs with
  | [] => (Ok [], [])
  | c :: rest =>
      match sp_sample (desc c) (prng c) with
      | (Raise e, p) => (Raise e, with_prng c p :: rest)
      | (Ok x, p) =>
          match sample_each rest with
          | (Raise e, rest') => (Raise e, with_prng c p :: rest')
          | (Ok xs, rest') => (Ok (x :: xs), with_prng c p :: rest')
          end
      end
  end.

Definition sample (self : t) : outcome value * t :=
  match sample_each (spaces self) with
  | (Raise e, cs) => (Raise e, with_spaces self cs)
  | (Ok xs, cs) => (Ok (VTuple xs), with_spaces self cs)
  end.

(** [all(space.contains(part) for (space, part) in zip(self.spaces, x))] *)
Fixpoint all_contains (ds : list D) (x : list value) : outcome bool :=
  match ds, x with
  | d :: ds', part :: x' =>
      b <- sp_contains d part ;;
      if b then all_contains ds' x' else Ok false
  | _, _ => Ok true
  end.

Definition contains (self : t) (x : value) : outcome bool :=
  x' <- promote x ;;
  match x' with
  | VTuple parts =>
      if (length parts =? length (spaces self))%nat
      then all_contains (descs self) parts
      else Ok false
  | _ => Ok false
  end.

(** [[sample[i] for sample in sample_n]] *)
Fixpoint column (i : nat) (sample_n : list value) : outcome (list value) :=
  match sample_n with
  | [] => Ok []
  | smp :: rest =>
      x <- getitem smp i ;;
      xs <- column i rest ;;
      Ok (x :: xs)
  end.

Fixpoint encode_columns (i : nat) (ds : list D) (sample_n : list value)
    : outcome (list value) :=
  match ds with
  | [] => Ok []
  | d :: ds' =>
      col <- column i sample_n ;;
      j <- sp_to_jsonable d col ;;
      js <- encode_columns (Datatypes.S i) ds' sample_n ;;
      Ok (j :: js)
  end.

Definition to_jsonable (self : t) (sample_n : list value) : outcome value :=
  js <- encode_columns 0 (descs self) sample_n ;;
  Ok (VList js).

(** [[space.from_jsonable(sample_n[i]) for i, space in enumerate(self.spaces)]] *)
Fixpoint decode_columns (i : nat) (ds : list D) (sample_n : value)
    : outcome (list (list value)) :=
  match ds with
  | [] => Ok []
  | d :: ds' =>
      j <- getitem sample_n i ;;
      col <- sp_from_jsonable d j ;;
      cols <- decode_columns (Datatypes.S i) ds' sample_n ;;
      Ok (col :: cols)
  end.

Definition from_jsonable (self : t) (sample_n : value) : outcome (list value) :=
  cols <- decode_columns 0 (descs self) sample_n ;;
  Ok (map VTuple (zip_star cols)).

(** [self.spaces == other.spaces] on two tuples of spaces. *)
Fixpoint spaces_eq (xs ys : list D) : bool :=
  match xs, ys with
  | [], [] => true
  | x :: xs', y :: ys' => sp_eq x y && spaces_eq xs' ys'
  | _, _ => false
  end.

(** What [__eq__] may be handed: another [Tuple], a space of another kind,
    or a plain value. *)
Inductive pyobject : Type :=
| ObjTuple (other : t)
| ObjSpace (d : D)
| ObjValue (v : value).

Definition eq (self : t) (other : pyobject) : bool :=
  match other with
  | ObjTuple o => spaces_eq (descs self) (descs o)
  | _ => false
  end.

Definition len (self : t) : nat := length (spaces self).

(** [seed] and then [sample], as one call sequence. *)
Definition seed_then_sample (s : value) (self : t)
    : outcome (list value * value) :=
  match seed s self with
  | (Raise e, _) => Raise e
  | (Ok seeds, self') =>
      match sample self' with
      | (Raise e, _) => Raise e
      | (Ok x, _) => Ok (seeds, x)
      end
  end.

(** *** Vocabulary of the statements below *)

(** The child after one call of its [seed] with [s]. *)
Definition reseed (cs : child * value) : child :=
  with_prng (fst cs) (snd (sp_seed (desc (fst cs)) (snd cs) (prng (fst cs)))).

(** The call [space.seed(s)] returns normally. *)
Definition seed_returns (cs : child * value) : Prop :=
  exists l, fst (sp_seed (desc (fst cs)) (snd cs) (prng (fst cs))) = Ok l.

(** [space.seed(None)] returns the list [l]. *)
Definition seeds_none (c : child) (l : list value) : Prop :=
  fst (sp_seed (desc c) VNone (prng c)) = Ok l.

Definition reseed_none (c : child) : child := reseed (c, VNone).

(** The value is none of the three accepted forms of a seed. *)
Definition unsupported_seed (v : value) : Prop :=
  match v with
  | VList _ | VInt _ | VBool _ | VNone => False
  | _ => True
  end.

(** The sub-seeds [subs] reach the loop over the children: the draw without
    replacement returned them, or it raised [ValueError] and the draw with
    replacement, on the generator as the failed draw left it, returned
    them. *)
Definition draws (size : nat) (g : G) (subs : list Z) (g' : G) : Prop :=
  choice iinfo_int_max size false g = (Ok subs, g')
  \/ exists g1,
       choice iinfo_int_max size false g = (Raise ValueError, g1)
       /\ choice iinfo_int_max size true g1 = (Ok subs, g').

(** Child by child, in order: [child.seed(sub-seed)] returns a list whose
    first element is recorded, and the child keeps the state of that call. *)
Inductive seeded_with : list child -> list Z -> list value -> list child -> Prop :=
| seeded_nil : seeded_with [] [] [] []
| seeded_cons c k first more p cs ks firsts cs' :
    sp_seed (desc c) (VInt k) (prng c) = (Ok (first :: more), p) ->
    seeded_with cs ks firsts cs' ->
    seeded_with (c :: cs) (k :: ks) (first :: firsts) (with_prng c p :: cs').

(** [child.sample()] returns a value that the child contains. *)
Definition samples_member (c : child) (x : value) : Prop :=
  fst (sp_sample (desc c) (prng c)) = Ok x
  /\ sp_contains (desc c) x = Ok true.

(** The child's [from_jsonable] undoes its [to_jsonable] on columns of
    members of the child. *)
Definition codec_inverse (d : D) : Prop :=
  forall col,
    Forall (fun x => sp_contains d x = Ok true) col ->
    exists j, sp_to_jsonable d col = Ok j /\ sp_from_jsonable d j = Ok col.

(** A valid sample: an ordered tuple that the composite contains. *)
Definition valid_sample (self : t) (smp : value) : Prop :=
  exists parts, smp = VTuple parts /\ contains self smp = Ok true.

(** Column by column, in child order: the child's [from_jsonable] decodes
    its entry of the data into a column; entries beyond the children are
    never read. *)
Inductive decodes : list D -> list value -> list (list value) -> Prop :=
| decodes_nil js : decodes [] js []
| decodes_cons d ds j js col cols :
    sp_from_jsonable d j = Ok col ->
    decodes ds js cols ->
    decodes (d :: ds) (j :: js) (col :: cols).

End Tuple.
End Tuple.

(** ** A leaf space and a generator to run the composite on *)

(** Modelled from the spec: a leaf space over the small discrete domain
    {0, ..., n-1} of the concrete scenario ("a small discrete domain {0,1}
    and a small discrete domain {0,1,2}").  The leaf spaces of the
    repository ([gym/spaces/discrete.py]) are not among the sources; this one
    follows the Space capability table: [seed] returns the list of the seed
    it applied, [sample] draws from the PRNG, [contains] is total, and
    [from_jsonable] inverts [to_jsonable].  The PRNG is a counter. *)
Module Discrete.

Definition seed (n : Z) (seed : value) (rng : Z) : outcome (list value) * Z :=
  match seed with
  | VInt s => (Ok [VInt s], s)
  | VBool b => (Ok [VInt (Z.b2z b)], Z.b2z b)
  | VNone => (Ok [VInt (rng + 1)], rng + 1)%Z
  | _ => (Raise (TypeError "seed must be an integer or None"), rng)
  end.

Definition sample (n : Z) (rng : Z) : outcome value * Z :=
  (Ok (VInt (rng mod n)), rng + 1)%Z.

Definition contains (n : Z) (x : value) : outcome bool :=
  match x with
  | VInt z => Ok ((0 <=? z)%Z && (z <? n)%Z)
  | _ => Ok false
  end.

Definition to_jsonable (n : Z) (sample_n : list value) : outcome value :=
  Ok (VList sample_n).

Definition from_jsonable (n : Z) (sample_n : value) : outcome (list value) :=
  match sample_n with
  | VList l => Ok l
  | _ => Raise (TypeError "expected a list")
  end.

#[global] Instance ops : SpaceOps Z Z := {|
  sp_seed := seed;
  sp_sample := sample;
  sp_contains := contains;
  sp_to_jsonable := to_jsonable;
  sp_from_jsonable := from_jsonable;
  sp_eq := Z.eqb
|}.

End Discrete.

(** Modelled from the spec: the generic space-seeding mechanism that [Tuple]
    inherits ([Space.seed] of [gym/spaces/space.py], not among the sources),
    which seeds the space's own PRNG with the integer and "yields one seed
    value for the composite's own randomness"; and a generator whose
    [choice] refuses to draw more values without replacement than the
    population holds.  The generator state is a counter. *)
Module Counter.

Definition Space_seed (seed : value) (g : Z) : outcome (list value) * Z :=
  match seed with
  | VInt s => (Ok [VInt s], s)
  | VBool b => (Ok [VInt (Z.b2z b)], Z.b2z b)
  | _ => (Raise (TypeError "seed must be an integer"), g)
  end.

Definition choice (a : Z) (size : nat) (replace : bool) (g : Z)
    : outcome (list Z) * Z :=
  if negb replace && (a <? Z.of_nat size)%Z
  then (Raise ValueError, g)
  else (Ok (map (fun i => ((g + Z.of_nat i + 1) mod a)%Z) (seq 0 size)),
        (g + Z.of_nat size)%Z).

#[global] Instance ops : BaseOps Z :=
  Build_BaseOps Z Space_seed choice 9223372036854775807.

End Counter.

(** [Tuple((Discrete(2), Discrete(3)))], both children and the composite
    with PRNG state 0. *)
Definition two_three : Tuple.t (D := Z) (S := Z) (G := Z) :=
  Tuple.Make [Tuple.Child 2 0; Tuple.Child 3 0]%Z 0%Z.

(** A platform whose integers stop at 1, so that two children already
    outnumber the values [choice] can draw without replacement. *)
Definition tiny_platform : BaseOps Z :=
  Build_BaseOps Z Counter.Space_seed Counter.choice 1.

(** [Tuple(())], the composite without children. *)
Definition no_children : Tuple.t (D := Z) (S := Z) (G := Z) :=
  Tuple.Make [] 0%Z.

(** ** The sequence view, the rendering and the constructor of [Tuple] *)

Module TupleObj.
Section TupleObj.

Context {D S G : Type} `{SpaceOps D S} `{BaseOps G}.

Local Abbreviation child := (@Tuple.child D S).
Local Abbreviation tuple := (@Tuple.t D S G).

(** [l[index]] on a Python tuple: a negative index counts from the end, and
    an index outside [-len(l), len(l)) is an [IndexError]. *)
Definition tuple_index {A : Type} (l : list A) (index : Z) : outcome A :=
  let n := Z.of_nat (length l) in
  let i := if (index <? 0)%Z then (index + n)%Z else index in
  if ((i <? 0) || (n <=? i))%Z
  then Raise IndexError
  else match nth_error l (Z.to_nat i) with
       | Some x => Ok x
       | None => Raise IndexError
       end.

(** [__getitem__]: [self.spaces[index]]. *)
Definition getitem (self : tuple) (index : Z) : outcome child :=
  tuple_index (Tuple.spaces self) index.

(** [sep.join(parts)] *)
Fixpoint join (sep : string) (parts : list string) : string :=
  match parts with
  | [] => EmptyString
  | p :: rest =>
      match rest with
      | [] => p
      | _ :: _ => String.append p (String.append sep (join sep rest))
      end
  end.

(** [__repr__]; [str_of] is [str(s)] of a child space. *)
Definition repr (str_of : D -> string) (self : tuple) : string :=
  String.append "Tuple("
    (String.append (join ", " (map str_of (Tuple.descs self))) ")").

(** An element of the iterable handed to the constructor: an instance of
    [Space], or anything else. *)
Inductive element : Type :=
| IsSpace (c : child)
| NotSpace (v : value).

(** [for space in spaces: assert isinstance(space, Space), ...] *)
Fixpoint assert_spaces (elems : list element) : outcome (list child) :=
  match elems with
  | [] => Ok []
  | IsSpace c :: rest =>
      cs <- assert_spaces rest ;;
      Ok (c :: cs)
  | NotSpace _ :: _ =>
      Raise (AssertionError "Elements of the tuple must be instances of gym.Space")
  end.

(** Modelled from the spec: the initializer of the base class
    ([Space.__init__] of [gym/spaces/space.py], not among the sources), to
    which [Tuple.__init__] "delegates final initialization, including seed
    application": an absent seed leaves the space alone, any other seed is
    handed to the space's own [seed]. *)
Definition Space_init (seed : value) (self : tuple) : outcome unit * tuple :=
  match seed with
  | VNone => (Ok tt, self)
  | _ =>
      let '(r, self') := Tuple.seed seed self in
      (_ <- r ;; Ok tt, self')
  end.

(** [__init__]: the new composite, or the exception, together with the
    elements as the call leaves them (a child handed to the constructor is
    the very object the composite seeds).  [g0] is the generator a space
    starts with. *)
Definition init (elems : list element) (seed : value) (g0 : G)
    : outcome tuple * list element :=
  match assert_spaces elems with
  | Raise e => (Raise e, elems)
  | Ok cs =>
      let '(r, self) := Space_init seed (Tuple.Make cs g0) in
      (_ <- r ;; Ok self, map IsSpace (Tuple.spaces self))
  end.

(** The text holds no comma. *)
Fixpoint comma_free (s : string) : Prop :=
  match s with
  | EmptyString => True
  | String c rest => c <> ","%char /\ comma_free rest
  end.

(** Nothing, or a text that starts with a comma. *)
Definition comma_led (s : string) : Prop :=
  s = EmptyString \/ exists rest, s = String ","%char rest.


(** A [Tuple] as the child of another [Tuple].  The descriptor is the inner
    composite as it was constructed and the state is the inner composite as
    it is now: [seed] and [sample] only move PRNGs and never change the
    children, so the methods that read no PRNG are those of the
    descriptor. *)
Definition nested_ops : SpaceOps tuple tuple := {|
  sp_seed := fun _ seed self => Tuple.seed seed self;
  sp_sample := fun _ self => Tuple.sample self;
  sp_contains := fun d x => Tuple.contains d x;
  sp_to_jsonable := fun d sample_n => Tuple.to_jsonable d sample_n;
  sp_from_jsonable := fun d sample_n => Tuple.from_jsonable d sample_n;
  sp_eq := fun d other => Tuple.eq d (Tuple.ObjTuple other)
|}.

End TupleObj.
End TupleObj.

(** [Tuple((Tuple((Discrete(2), Discrete(3))),))]: a composite whose only
    child is itself a composite. *)
Definition nested_two_three
    : @Tuple.t (@Tuple.t Z Z Z) (@Tuple.t Z Z Z) Z :=
  Tuple.Make [Tuple.Child two_three two_three] 0%Z.

(** ** The helpers of the environment tests ([tests/envs/utils.py]) *)

Module Utils.

(** What the module reads of an [EnvSpec] ([gym/envs/registration.py]). *)
Record EnvSpec : Type := { id : string; entry_point : string }.

(** [needle in hay] on strings. *)
Fixpoint str_in (needle hay : string) : bool :=
  String.prefix needle hay
  || match hay with
     | EmptyString => false
     | String _ rest => str_in needle rest
     end.

Definition mujoco_testing_env_specs (all_testing_env_specs : list EnvSpec)
    : list EnvSpec :=
  filter (fun env_spec => str_in "gym.envs.mujoco" (entry_point env_spec))
         all_testing_env_specs.

Definition gym_testing_env_specs (all_testing_env_specs : list EnvSpec)
    : list EnvSpec :=
  filter (fun env_spec =>
            existsb (fun ep => str_in (String.append "gym." ep)
                                      (entry_point env_spec))
                    ["box2d"; "classic_control"; "toy_text"])
         all_testing_env_specs.

Section AssertEquals.

(** Dictionary keys with their [==], the classes of the objects that are
    neither [dict], [np.ndarray] nor [tuple] with the test
    [type(a) == type(b)], the values of such objects with the truth of
    [a == b], and arrays with the verdict of
    [np.testing.assert_array_equal]. *)
Variables K Ty X Arr : Type.
Variable key_eqb : K -> K -> bool.
Variable type_eqb : Ty -> Ty -> bool.
Variable value_eqb : X -> X -> bool.
Variable array_equal : Arr -> Arr -> bool.

(** The data structures [assert_equals] tells apart.  A [dict] lists its
    items in insertion order, each key once. *)
#[warnings="-register-all"]
Inductive obj : Type :=
| ODict (items : list (K * obj))
| ONdarray (a : Arr)
| OTuple (items : list obj)
| OOther (ty : Ty) (x : X).

(** The assertion that failed ([KeyError] for [b[k]] on a missing key). *)
Inductive failure : Type :=
| DifferingTypes
| KeySetsDiffer
| ArraysDiffer
| ValuesDiffer
| KeyError.

Inductive verdict : Type :=
| Passed
| Failed (f : failure).

(** [list(a.keys()) == list(b.keys())] *)
Fixpoint keys_eqb (ks ks' : list K) : bool :=
  match ks, ks' with
  | [], [] => true
  | k :: r, k' :: r' => key_eqb k k' && keys_eqb r r'
  | _, _ => false
  end.

(** [b[k]] *)
Fixpoint lookup (k : K) (items : list (K * obj)) : option obj :=
  match items with
  | [] => None
  | (k', v) :: rest => if key_eqb k k' then Some v else lookup k rest
  end.

Fixpoint assert_equals (a b : obj) : verdict :=
  match a, b with
  | ODict items_a, ODict items_b =>
      if keys_eqb (map fst items_a) (map fst items_b)
      then
        (fix each (items : list (K * obj)) : verdict :=
           match items with
           | [] => Passed
           | (k, v_a) :: rest =>
               match lookup k items_b with
               | None => Failed KeyError
               | Some v_b =>
                   match assert_equals v_a v_b with
                   | Passed => each rest
                   | Failed f => Failed f
                   end
               end
           end) items_a
      else Failed KeySetsDiffer
  | ONdarray x, ONdarray y =>
      if array_equal x y then Passed else Failed ArraysDiffer
  | OTuple xs, OTuple ys =>
      (fix each (xs ys : list obj) {struct xs} : verdict :=
         match xs, ys with
         | elem_from_a :: xs', elem_from_b :: ys' =>
             match assert_equals elem_from_a elem_from_b with
             | Passed => each xs' ys'
             | Failed f => Failed f
             end
         | _, _ => Passed
         end) xs ys
  | OOther ty_a x, OOther ty_b y =>
      if type_eqb ty_a ty_b
      then if value_eqb x y then Passed else Failed ValuesDiffer
      else Failed DifferingTypes
  | _, _ => Failed DifferingTypes
  end.

(** Every dictionary inside the object lists each key once. *)
Fixpoint keys_once (a : obj) : Prop :=
  match a with
  | ODict items =>
      NoDup (map fst items)
      /\ (fix all (items : list (K * obj)) : Prop :=
            match items with
            | [] => True
            | (_, v) :: rest => keys_once v /\ all rest
            end) items
  | OTuple items =>
      (fix all (items : list obj) : Prop :=
         match items with
         | [] => True
         | v :: rest => keys_once v /\ all rest
         end) items
  | _ => True
  end.

End AssertEquals.
End Utils.

(** [str(s)] of the stand-in leaves. *)
Definition discrete_str (n : Z) : string :=
  if (n =? 2)%Z then "Discrete(2)" else "Discrete(3)".

(** A registry entry of the form the classic-control environments have. *)
Definition cart_pole : Utils.EnvSpec :=
  {| Utils.id := "CartPole-v1";
     Utils.entry_point := "gym.envs.classic_control.cartpole:CartPoleEnv" |}.

(** [assert_equals] on objects whose dictionary keys and class names are
    strings, whose plain values are integers and whose arrays are lists of
    integers. *)
Definition assert_equals_on_ints :=
  Utils.assert_equals string string Z (list Z) String.eqb String.eqb Z.eqb
    (fun a b => if list_eq_dec Z.eq_dec a b then true else false).

(** ** Children as shared objects *)

(** [self.spaces = tuple(spaces)] keeps references to the spaces it was
    given: a space object handed over twice ([Tuple((d, d))]), or handed to
    two composites, is one object with one PRNG.  Here a composite holds the
    identities of its children and a heap gives the object behind each
    identity; [seed] and [sample] are those of [Tuple], reading and writing
    the children through the heap.  Where no identity occurs twice the two
    models agree ([SharedLaws.seed_unshared], [SharedLaws.sample_unshared]). *)
Module Shared.
Section Shared.

Context {D S G : Type} `{SpaceOps D S} `{BaseOps G}.

Local Abbreviation child := (@Tuple.child D S).

(** The space object behind every identity. *)
Definition heap : Type := nat -> child.

Definition put (h : heap) (r : nat) (c : child) : heap :=
  fun j => if Nat.eqb j r then c else h j.

(** [self]: the identities of [self.spaces] and the composite's own
    generator. *)
Record t : Type := Make { spaces : list nat; np_random : G }.

Definition with_generator (self : t) (g : G) : t :=
  {| spaces := spaces self; np_random := g |}.

Definition descs (self : t) (h : heap) : list D :=
  map (fun r => Tuple.desc (h r)) (spaces self).

(** [space.seed(s)] on the object behind [r]. *)
Definition call_seed (r : nat) (s : value) (h : heap)
    : outcome (list value) * heap :=
  let '(o, p) := sp_seed (Tuple.desc (h r)) s (Tuple.prng (h r)) in
  (o, put h r (Tuple.with_prng (h r) p)).

(** [space.sample()] on the object behind [r]. *)
Definition call_sample (r : nat) (h : heap) : outcome value * heap :=
  let '(o, p) := sp_sample (Tuple.desc (h r)) (Tuple.prng (h r)) in
  (o, put h r (Tuple.with_prng (h r) p)).

(** [for i, space in enumerate(self.spaces): seeds += space.seed(seed[i])] *)
Fixpoint seed_each (seed : list value) (i : nat) (refs : list nat)
    (seeds : list value) (h : heap) : outcome (list value) * heap :=
  match refs with
  | [] => (Ok seeds, h)
  | r :: rest =>
      match nth_error seed i with
      | None => (Raise IndexError, h)
      | Some s =>
          match call_seed r s h with
          | (Raise e, h') => (Raise e, h')
          | (Ok l, h') => seed_each seed (Datatypes.S i) rest (seeds ++ l) h'
          end
      end
  end.

(** [for subspace, subseed in zip(self.spaces, subseeds):
       seeds.append(subspace.seed(int(subseed))[0])] *)
Fixpoint seed_subspaces (refs : list nat) (subseeds : list Z)
    (seeds : list value) (h : heap) : outcome (list value) * heap :=
  match refs, subseeds with
  | r :: rest, k :: ks =>
      match call_seed r (VInt k) h with
      | (Raise e, h') => (Raise e, h')
      | (Ok [], h') => (Raise IndexError, h')
      | (Ok (first :: _), h') => seed_subspaces rest ks (seeds ++ [first]) h'
      end
  | _, _ => (Ok seeds, h)
  end.

(** [for space in self.spaces: seeds += space.seed(seed)] with [seed is None] *)
Fixpoint seed_none (refs : list nat) (seeds : list value) (h : heap)
    : outcome (list value) * heap :=
  match refs with
  | [] => (Ok seeds, h)
  | r :: rest =>
      match call_seed r VNone h with
      | (Raise e, h') => (Raise e, h')
      | (Ok l, h') => seed_none rest (seeds ++ l) h'
      end
  end.

Definition seed (seed : value) (self : t) (h : heap)
    : outcome (list value) * t * heap :=
  match seed with
  | VList l =>
      let '(r, h') := seed_each l 0 (spaces self) [] h in
      (r, self, h')
  | VInt _ | VBool _ =>
      match Space_seed seed (np_random self) with
      | (Raise e, g) => (Raise e, with_generator self g, h)
      | (Ok seeds, g) =>
          match Tuple.draw_subseeds (length (spaces self)) g with
          | (Raise e, g') => (Raise e, with_generator self g', h)
          | (Ok subseeds, g') =>
              let '(r, h') := seed_subspaces (spaces self) subseeds seeds h in
              (r, with_generator self g', h')
          end
      end
  | VNone =>
      let '(r, h') := seed_none (spaces self) [] h in
      (r, self, h')
  | _ =>
      (Raise (TypeError "Passed seed not of an expected type: list or int or None"),
       self, h)
  end.

(** [tuple(space.sample() for space in self.spaces)] *)
Fixpoint sample_each (refs : list nat) (h : heap)
    : outcome (list value) * heap :=
  match refs with
  | [] => (Ok [], h)
  | r :: rest =>
      match call_sample r h with
      | (Raise e, h') => (Raise e, h')
      | (Ok x, h') =>
          match sample_each rest h' with
          | (Raise e, h'') => (Raise e, h'')
          | (Ok xs, h'') => (Ok (x :: xs), h'')
          end
      end
  end.

Definition sample (self : t) (h : heap) : outcome value * heap :=
  match sample_each (spaces self) h with
  | (Raise e, h') => (Raise e, h')
  | (Ok xs, h') => (Ok (VTuple xs), h')
  end.

(** [self.seed(s)] and then [self.sample()]. *)
Definition seed_then_sample (s : value) (self : t) (h : heap)
    : outcome (list value * value) :=
  match seed s self h with
  | (Raise e, _, _) => Raise e
  | (Ok seeds, self', h') =>
      match sample self' h' with
      | (Raise e, _) => Raise e
      | (Ok x, _) => Ok (seeds, x)
      end
  end.


(** *** Vocabulary of the statements on shared children *)



(** Two runs of a call agree: the same outcome, and after a normal return
    the same state. *)
Definition agree {A T : Type} (x y : outcome A * T) : Prop :=
  fst x = fst y /\ (forall a, fst x = Ok a -> snd x = snd y).

(** Two child objects are seeded alike: they are the same space, and
    seeding either with the same integer gives the same outcome and, after
    a normal return, the same PRNG state. *)
Definition seeds_alike (c1 c2 : child) : Prop :=
  Tuple.desc c1 = Tuple.desc c2
  /\ forall k,
       agree (sp_seed (Tuple.desc c1) (VInt k) (Tuple.prng c1))
             (sp_seed (Tuple.desc c2) (VInt k) (Tuple.prng c2)).

End Shared.
End Shared.




(** ** Properties of the composite *)

Module TupleSpec.
Import Tuple.

Section Seeding.

Context {D St G : Type} `{SpaceOps D St} `{BaseOps G}.

Local Abbreviation child := (@child D St).
Local Abbreviation tuple := (@t D St G).

Lemma seed_none_run (cs : list child) :
  forall (ls : list (list value)) (acc : list value),
    Forall2 seeds_none cs ls ->
    seed_none cs acc = (Ok (acc ++ concat ls), map reseed_none cs).
Proof.
  induction cs as [|c cs IH]; intros ls acc HF;
    inversion HF as [|? l0 ? ls0 Hc HF']; subst; simpl.
  - now rewrite app_nil_r.
  - unfold seeds_none in Hc.
    unfold reseed_none at 1, reseed; simpl.
    destruct (sp_seed (desc c) VNone (prng c)) as [o p]; simpl in *; subst o.
    rewrite (IH ls0 (acc ++ l0) HF').
    now rewrite app_assoc.
Qed.

Lemma seed_none_generator (self : tuple) :
  np_random (snd (seed VNone self)) = np_random self.
Proof.
  unfold seed. destruct (seed_none (spaces self) []); reflexivity.
Qed.

Lemma length_concat_sum {A : Type} (ls : list (list A)) :
  length (concat ls) = list_sum (map (@length A) ls).
Proof.
  induction ls as [|l ls IH]; simpl; [reflexivity|].
  now rewrite length_app, IH.
Qed.

(** C7: seeding with [None] seeds every child with [None], in order, and
    returns the concatenation of what the children returned; its length is
    the sum of the children's lengths, and the composite's own generator is
    left as it was. *)
Theorem seed_None_concatenates (self : tuple) (ls : list (list value)) :
  Forall2 seeds_none (spaces self) ls ->
  seed VNone self =
    (Ok (concat ls),
     {| spaces := map reseed_none (spaces self); np_random := np_random self |})
  /\ length (concat ls) = list_sum (map (@length value) ls)
  /\ np_random (snd (seed VNone self)) = np_random self.
Proof.
  intros HF. split; [|split].
  - unfold seed. now rewrite (seed_none_run _ ls []).
  - apply length_concat_sum.
  - apply seed_none_generator.
Qed.

(** The per-child list: a list shorter than the children runs out at the
    first child without an entry, after the children before it were seeded. *)
Lemma seed_each_short (cs : list child) :
  forall (l pre acc : list value),
    length l < length cs ->
    Forall seed_returns (combine cs l) ->
    seed_each (pre ++ l) (length pre) cs acc =
      (Raise IndexError, map reseed (combine cs l) ++ skipn (length l) cs).
Proof.
  induction cs as [|c cs IH]; intros l pre acc Hlen HF; simpl in Hlen; [lia|].
  destruct l as [|s l]; simpl.
  - rewrite app_nil_r.
    replace (nth_error pre (length pre)) with (@None value)
      by (symmetry; apply nth_error_None; lia).
    reflexivity.
  - rewrite nth_error_app2 by lia. rewrite Nat.sub_diag. simpl.
    simpl in HF. inversion HF as [|? ? [out Hout] HF']; subst.
    unfold reseed at 1. simpl in *.
    destruct (sp_seed (desc c) s (prng c)) as [o p]; simpl in *; subst o.
    specialize (IH l (pre ++ [s]) (acc ++ out)).
    rewrite <- app_assoc, length_app in IH. simpl in IH.
    rewrite Nat.add_1_r in IH.
    rewrite IH by (assumption || lia). reflexivity.
Qed.

Lemma seed_each_short_raises (cs : list child) :
  forall (l pre acc : list value),
    length l < length cs ->
    exists e, fst (seed_each (pre ++ l) (length pre) cs acc) = Raise e.
Proof.
  induction cs as [|c cs IH]; intros l pre acc Hlen; simpl in Hlen; [lia|].
  destruct l as [|s l]; simpl.
  - rewrite app_nil_r.
    replace (nth_error pre (length pre)) with (@None value)
      by (symmetry; apply nth_error_None; lia).
    now exists IndexError.
  - rewrite nth_error_app2 by lia. rewrite Nat.sub_diag. simpl.
    destruct (sp_seed (desc c) s (prng c)) as [[out|e] p].
    + specialize (IH l (pre ++ [s]) (acc ++ out)).
      rewrite <- app_assoc, length_app in IH. simpl in IH.
      rewrite Nat.add_1_r in IH. simpl in Hlen.
      destruct IH as [e He]; [lia|].
      destruct (seed_each _ _ cs _) as [r rest']. simpl in *. now exists e.
    + now exists e.
Qed.

(** Entries beyond the number of children are never read. *)
Lemma seed_each_surplus (cs : list child) :
  forall (l extra pre acc : list value),
    length l = length cs ->
    seed_each (pre ++ l ++ extra) (length pre) cs acc =
    seed_each (pre ++ l) (length pre) cs acc.
Proof.
  induction cs as [|c cs IH]; intros l extra pre acc Hlen; simpl; [reflexivity|].
  destruct l as [|s l]; simpl in Hlen; [discriminate|].
  rewrite (nth_error_app2 pre (s :: l ++ extra)) by lia.
  rewrite (nth_error_app2 pre (s :: l)) by lia.
  rewrite Nat.sub_diag. simpl.
  destruct (sp_seed (desc c) s (prng c)) as [[out|e] p]; [|reflexivity].
  pose proof (IH l extra (pre ++ [s]) (acc ++ out)) as IH'.
  rewrite <- !app_assoc, length_app in IH'. simpl in IH'.
  rewrite Nat.add_1_r in IH'.
  rewrite IH' by lia. reflexivity.
Qed.

(** C10: with a list shorter than the number of children, [IndexError] is
    raised after the children that do have an entry were re-seeded with it;
    their PRNGs keep the new state, the later children and the composite's
    generator are untouched. *)
Theorem seed_short_list_not_atomic (self : tuple) (l : list value) :
  length l < length (spaces self) ->
  Forall seed_returns (combine (spaces self) l) ->
  seed (VList l) self =
    (Raise IndexError,
     {| spaces := map reseed (combine (spaces self) l)
                  ++ skipn (length l) (spaces self);
        np_random := np_random self |}).
Proof.
  intros Hlen HF. unfold seed.
  pose proof (seed_each_short (spaces self) l [] [] Hlen HF) as E.
  simpl in E. now rewrite E.
Qed.

(** C4, as the code has it: a list shorter than the number of children and a
    seed of an unsupported type are errors reported to the caller. *)
Theorem seed_rejects_short_and_unsupported (self : tuple) :
  (forall l, length l < length (spaces self) ->
     exists e, fst (seed (VList l) self) = Raise e)
  /\ (forall v, unsupported_seed v ->
     exists msg, seed v self = (Raise (TypeError msg), self)).
Proof.
  split.
  - intros l Hlen. unfold seed.
    destruct (seed_each_short_raises (spaces self) l [] [] Hlen) as [e He].
    simpl in He. destruct (seed_each l 0 (spaces self) []). now exists e.
  - intros v Hv. destruct v; simpl in Hv; try contradiction; simpl; eauto.
Qed.

(** A list longer than the number of children is accepted: the call behaves
    as on the list cut to the number of children. *)
Lemma seed_long_list_truncates (self : tuple) (l extra : list value) :
  length l = length (spaces self) ->
  seed (VList (l ++ extra)) self = seed (VList l) self.
Proof.
  intros Hlen. unfold seed.
  pose proof (seed_each_surplus (spaces self) l extra [] [] Hlen) as E.
  simpl in E. now rewrite E.
Qed.

(** The loop over the children and their sub-seeds. *)
Lemma seed_subspaces_run (cs cs' : list child) (subs : list Z)
    (firsts : list value) :
  seeded_with cs subs firsts cs' ->
  forall acc, seed_subspaces cs subs acc = (Ok (acc ++ firsts), cs').
Proof.
  induction 1 as [|c k first more p cs ks firsts cs' Hc _ IH]; intros acc; simpl.
  - now rewrite app_nil_r.
  - rewrite Hc, (IH (acc ++ [first])), <- app_assoc. reflexivity.
Qed.

Lemma draw_subseeds_run (size : nat) (g g' : G) (subs : list Z) :
  draws size g subs g' -> draw_subseeds size g = (Ok subs, g').
Proof.
  unfold draws, draw_subseeds.
  intros [E | [g1 [E1 E2]]]; [now rewrite E | now rewrite E1].
Qed.

(** C1: seeding with one integer seeds the composite's own generator first
    and records the seed value that yields; then draws one sub-seed per
    child below the platform's maximal integer from the freshly seeded
    generator, without replacement, or with replacement when that draw
    raised [ValueError]; and returns the own seed value followed, in child
    order, by the first element of what each child's [seed] returned on its
    sub-seed. *)
Theorem seed_int_own_then_children (self : tuple) (s : Z) (own : value)
    (g1 g2 : G) (subs : list Z) (firsts : list value) (cs' : list child) :
  Space_seed (VInt s) (np_random self) = (Ok [own], g1) ->
  draws (length (spaces self)) g1 subs g2 ->
  seeded_with (spaces self) subs firsts cs' ->
  seed (VInt s) self =
    (Ok (own :: firsts), {| spaces := cs'; np_random := g2 |}).
Proof.
  intros Hown Hdraw Hchildren. unfold seed.
  rewrite Hown, (draw_subseeds_run _ _ _ _ Hdraw).
  now rewrite (seed_subspaces_run _ _ _ _ Hchildren [own]).
Qed.

(** Seeding the children with sub-seeds forgets the states they had, when
    every child's integer seeding does. *)
Lemma seed_subspaces_forgets (cs1 : list child) :
  (forall d k p p', sp_seed d (VInt k) p = sp_seed d (VInt k) p') ->
  forall (cs2 : list child) (subs : list Z) (acc : list value),
    map desc cs1 = map desc cs2 ->
    length subs = length cs1 ->
    fst (seed_subspaces cs1 subs acc) = fst (seed_subspaces cs2 subs acc)
    /\ (forall l, fst (seed_subspaces cs1 subs acc) = Ok l ->
        snd (seed_subspaces cs1 subs acc) = snd (seed_subspaces cs2 subs acc)).
Proof.
  intros Hchild.
  induction cs1 as [|c1 cs1 IH]; intros [|c2 cs2] subs acc Hd Hlen;
    simpl in Hd; try discriminate.
  - destruct subs; [|discriminate]. simpl. auto.
  - injection Hd as Hd1 Hd2.
    destruct subs as [|k ks]; [discriminate|]. simpl in Hlen. simpl.
    rewrite <- Hd1, (Hchild (desc c1) k (prng c2) (prng c1)).
    destruct (sp_seed (desc c1) (VInt k) (prng c1)) as [[[|first more]|e] p];
      simpl; try (split; [reflexivity | discriminate]).
    destruct (IH cs2 ks (acc ++ [first]) Hd2) as [E1 E2]; [lia|].
    destruct (seed_subspaces cs1 ks (acc ++ [first])) as [r1 rest1].
    destruct (seed_subspaces cs2 ks (acc ++ [first])) as [r2 rest2].
    simpl in *. split; [assumption|].
    intros l Hl. unfold with_prng. rewrite Hd1. f_equal. now apply (E2 l).
Qed.

Lemma draw_subseeds_size (size : nat) (g g' : G) (subs : list Z) :
  (forall a n r g0 l g0', choice a n r g0 = (Ok l, g0') -> length l = n) ->
  draw_subseeds size g = (Ok subs, g') -> length subs = size.
Proof.
  intros Hsize. unfold draw_subseeds.
  destruct (choice iinfo_int_max size false g) as [[l|e] g1] eqn:E.
  - intros E'. injection E' as <- <-. eapply Hsize, E.
  - destruct e; try discriminate. intros E'. eapply Hsize, E'.
Qed.

End Seeding.

Section Membership.

Context {D St G : Type} `{SpaceOps D St} `{BaseOps G}.

Local Abbreviation child := (@child D St).
Local Abbreviation tuple := (@t D St G).

Lemma all_contains_true (ds : list D) :
  forall parts,
    length parts = length ds ->
    (all_contains ds parts = Ok true <->
     Forall2 (fun d x => sp_contains d x = Ok true) ds parts).
Proof.
  induction ds as [|d ds IH]; intros [|x parts] Hlen; simpl in Hlen;
    try discriminate; simpl.
  - split; [constructor | reflexivity].
  - injection Hlen as Hlen. specialize (IH parts Hlen).
    destruct (sp_contains d x) as [[|]|e] eqn:E; simpl.
    + rewrite IH. split.
      * now constructor.
      * intros HF. now inversion HF.
    + split; [discriminate|]. intros HF. inversion HF; congruence.
    + split; [discriminate|]. intros HF. inversion HF; congruence.
Qed.

(** On an ordered tuple, [contains] answers [True] exactly when the tuple
    has one element per child and each child contains its element. *)
Lemma contains_tuple_true (self : tuple) (parts : list value) :
  contains self (VTuple parts) = Ok true <->
  Forall2 (fun d x => sp_contains d x = Ok true) (descs self) parts.
Proof.
  unfold contains. simpl.
  destruct (length parts =? length (spaces self))%nat eqn:E.
  - apply Nat.eqb_eq in E. apply all_contains_true.
    unfold descs. now rewrite length_map.
  - apply Nat.eqb_neq in E. split; [discriminate|].
    intros HF. apply Forall2_length in HF.
    unfold descs in HF. rewrite length_map in HF. congruence.
Qed.

Lemma sample_each_run (cs : list child) :
  forall xs,
    Forall2 samples_member cs xs ->
    fst (sample_each cs) = Ok xs
    /\ map desc (snd (sample_each cs)) = map desc cs.
Proof.
  induction cs as [|c cs IH]; intros xs HF;
    inversion HF as [|? x ? xs' [Hc _] HF']; subst; simpl.
  - auto.
  - destruct (IH xs' HF') as [E1 E2].
    destruct (sp_sample (desc c) (prng c)) as [o p]. simpl in Hc. subst o.
    destruct (sample_each cs) as [r rest]. simpl in *. subst r. simpl.
    now rewrite E2.
Qed.

(** C8: [sample] calls the children's [sample] in order and returns the
    tuple of their results, one per child; when every child's sample is a
    member of that child, the composite contains its own sample. *)
Theorem sample_is_contained (self : tuple) (xs : list value) :
  Forall2 samples_member (spaces self) xs ->
  fst (sample self) = Ok (VTuple xs)
  /\ length xs = len self
  /\ descs (snd (sample self)) = descs self
  /\ contains (snd (sample self)) (VTuple xs) = Ok true.
Proof.
  intros HF. destruct (sample_each_run (spaces self) xs HF) as [E1 E2].
  assert (Hs : fst (sample self) = Ok (VTuple xs)
               /\ descs (snd (sample self)) = descs self).
  { unfold sample, descs. destruct (sample_each (spaces self)) as [r cs].
    simpl in *. subst r. simpl. auto. }
  destruct Hs as [Hs1 Hs2]. repeat split; try assumption.
  - symmetry. apply (Forall2_length HF).
  - apply contains_tuple_true. rewrite Hs2. unfold descs.
    clear -HF. induction HF as [|c x cs xs [_ Hc] _ IH]; simpl; constructor; auto.
Qed.

(** C2, where the code breaks it: a zero-dimensional array is an
    [np.ndarray], so [contains] hands it to [tuple], whose [TypeError]
    reaches the caller instead of the answer [False]. *)
Theorem contains_raises_on_0d_array (self : tuple) (z : Z) :
  contains self (VNdarray0 z) = Raise (TypeError "iteration over a 0-d array").
Proof. reflexivity. Qed.

Lemma all_contains_total (ds : list D) :
  (forall d x, exists b, sp_contains d x = Ok b) ->
  forall parts, exists b, all_contains ds parts = Ok b.
Proof.
  intros Htotal. induction ds as [|d ds IH]; intros [|x parts]; simpl; eauto.
  destruct (Htotal d x) as [[|] ->]; simpl; eauto.
Qed.

(** Everywhere else [contains] returns a boolean, given total children. *)
Lemma contains_total_off_0d_arrays (self : tuple) (x : value) :
  (forall d v, exists b, sp_contains d v = Ok b) ->
  (forall z, x <> VNdarray0 z) ->
  exists b, contains self x = Ok b.
Proof.
  intros Htotal Hx. unfold contains.
  destruct x as [| | | |parts|parts|z|parts]; simpl; eauto;
    try (destruct (_ =? _)%nat; eauto using all_contains_total).
  now destruct (Hx z).
Qed.

(** Off zero-dimensional arrays [contains] decides membership: it returns a
    boolean, which is [True] exactly when the value, promoted to a tuple,
    has one element per child and each child contains its element. *)
Theorem contains_decides_membership (self : tuple) (x : value) :
  (forall d v, exists b, sp_contains d v = Ok b) ->
  (forall z, x <> VNdarray0 z) ->
  exists b,
    contains self x = Ok b
    /\ (b = true <->
        exists parts,
          promote x = Ok (VTuple parts)
          /\ Forall2 (fun d p => sp_contains d p = Ok true) (descs self) parts).
Proof.
  intros Htotal Hx.
  destruct (contains_total_off_0d_arrays self x Htotal Hx) as [b Hb].
  exists b. split; [assumption|]. split.
  - intros ->.
    destruct x as [| | | |parts|parts|z|parts]; try discriminate Hb;
      exists parts; (split; [reflexivity|]);
      now apply (contains_tuple_true self parts).
  - intros [parts [Hp HF]].
    apply (contains_tuple_true self parts) in HF.
    assert (E : contains self x = contains self (VTuple parts))
      by (unfold contains; now rewrite Hp).
    congruence.
Qed.

Lemma spaces_eq_Forall2 (xs : list D) :
  forall ys,
    spaces_eq xs ys = true <-> Forall2 (fun x y => sp_eq x y = true) xs ys.
Proof.
  induction xs as [|x xs IH]; intros [|y ys]; simpl.
  - split; [constructor | reflexivity].
  - split; [discriminate | intros HF; inversion HF].
  - split; [discriminate | intros HF; inversion HF].
  - rewrite andb_true_iff, IH. split.
    + intros [Hx HF]. now constructor.
    + intros HF. now inversion HF.
Qed.

(** C9: [__eq__] answers [True] exactly when the other object is a [Tuple]
    whose children equal this one's, one by one and in order; so composites
    over pairwise equal children are equal, and swapping two unequal children
    makes them unequal. *)
Theorem eq_iff_Tuple_with_equal_children :
  (forall (self : tuple) (other : pyobject),
     eq self other = true <->
     exists o : tuple,
       other = ObjTuple o
       /\ Forall2 (fun x y => sp_eq x y = true) (descs self) (descs o))
  /\ (forall (a b a' b' : child) (g g' : G),
        sp_eq (desc a) (desc a') = true -> sp_eq (desc b) (desc b') = true ->
        eq (Make [a; b] g) (ObjTuple (Make [a'; b'] g')) = true)
  /\ (forall (a b a' b' : child) (g g' : G),
        sp_eq (desc a) (desc b') = false ->
        eq (Make [a; b] g) (ObjTuple (Make [b'; a'] g')) = false).
Proof.
  split; [|split].
  - intros self other. destruct other as [o|d|v]; simpl.
    + rewrite spaces_eq_Forall2. split.
      * intros HF. exists o. auto.
      * intros [o' [E HF]]. now injection E as <-.
    + split; [discriminate | intros [o [E _]]; discriminate].
    + split; [discriminate | intros [o [E _]]; discriminate].
  - intros a b a' b' g g' Ha Hb. simpl. now rewrite Ha, Hb.
  - intros a b a' b' g g' Hab. simpl. now rewrite Hab.
Qed.

End Membership.

Section Transposition.

Context {A : Type}.

Lemma next_all_Some (cols : list (list A)) :
  forall hs ts,
    next_all cols = Some (hs, ts) ->
    ts = map (@tl A) cols
    /\ Forall2 (fun col h => nth_error col 0 = Some h) cols hs.
Proof.
  induction cols as [|col cols IH]; intros hs ts E; simpl in E.
  - injection E as <- <-. split; [reflexivity | constructor].
  - destruct col as [|x c]; [discriminate|].
    destruct (next_all cols) as [[hs' ts']|]; [|discriminate].
    injection E as <- <-. destruct (IH hs' ts' eq_refl) as [-> HF].
    split; [reflexivity | now constructor].
Qed.

Lemma next_all_None (cols : list (list A)) :
  next_all cols = None -> In [] cols.
Proof.
  induction cols as [|col cols IH]; simpl; [discriminate|].
  destruct col as [|x c]; [now left|].
  destruct (next_all cols) as [[hs ts]|]; [discriminate|].
  intros _. right. now apply IH.
Qed.

Lemma nth_error_tl (l : list A) (k : nat) :
  nth_error (tl l) k = nth_error l (S k).
Proof. destruct l; [now destruct k | reflexivity]. Qed.

Lemma Forall2_tl_shift (cols : list (list A)) (k : nat) :
  forall row,
    Forall2 (fun col x => nth_error col k = Some x) (map (@tl A) cols) row ->
    Forall2 (fun col x => nth_error col (S k) = Some x) cols row.
Proof.
  induction cols as [|col cols IH]; intros row HF; simpl in HF;
    inversion HF; subst; constructor; auto.
  now rewrite <- nth_error_tl.
Qed.

(** The [k]-th row of the transposition holds the [k]-th item of every
    column, in the order of the columns. *)
Lemma zip_rows_nth (c : list A) :
  forall rest k row,
    nth_error (zip_rows c rest) k = Some row ->
    Forall2 (fun col x => nth_error col k = Some x) (c :: rest) row.
Proof.
  induction c as [|x c IH]; intros rest k row E; simpl in E.
  - now destruct k.
  - destruct (next_all rest) as [[hs ts]|] eqn:En; [|now destruct k].
    destruct (next_all_Some _ _ _ En) as [-> HF].
    destruct k as [|k]; simpl in E.
    + injection E as <-. now constructor.
    + specialize (IH _ _ _ E). inversion IH; subst.
      constructor; [assumption | now apply Forall2_tl_shift].
Qed.

(** The transposition is as long as the shortest column. *)
Lemma zip_rows_length (c : list A) :
  forall rest,
    (forall col, In col (c :: rest) -> length (zip_rows c rest) <= length col)
    /\ (exists col, In col (c :: rest) /\ length (zip_rows c rest) = length col).
Proof.
  induction c as [|x c IH]; intros rest; simpl zip_rows.
  - split; [intros; simpl; lia | exists []; simpl; auto].
  - destruct (next_all rest) as [[hs ts]|] eqn:En.
    + destruct (next_all_Some _ _ _ En) as [-> HF].
      destruct (IH (map (@tl A) rest)) as [Hle [col' [Hin Heq]]].
      assert (Hne : forall col, In col rest -> length col = S (length (tl col))).
      { clear -HF. induction HF as [|col h cols hs Hh _ IHF]; intros col0 Hin0;
          simpl in Hin0; [contradiction|].
        destruct Hin0 as [<-|Hin0]; [|now apply IHF].
        destruct col; [discriminate | reflexivity]. }
      split.
      * intros col [<-|Hin']; simpl.
        -- apply le_n_S, Hle. now left.
        -- rewrite (Hne col Hin'). apply le_n_S, Hle. right. now apply in_map.
      * destruct Hin as [<-|Hin].
        -- exists (x :: c). split; [now left | simpl; now rewrite Heq].
        -- apply in_map_iff in Hin. destruct Hin as [col [<- Hin]].
           exists col. split; [now right|]. simpl. now rewrite Heq, (Hne col Hin).
    + split; [intros; simpl; lia|].
      exists []. split; [right; now apply next_all_None | reflexivity].
Qed.

Lemma next_all_columns {R : Type} (f : nat -> R -> A) (r : R) (rs : list R)
    (ks : list nat) :
  next_all (map (fun k => map (f k) (r :: rs)) ks) =
    Some (map (fun k => f k r) ks, map (fun k => map (f k) rs) ks).
Proof.
  induction ks as [|k ks IH]; simpl; [reflexivity|].
  simpl in IH. now rewrite IH.
Qed.

(** Transposing the columns of a batch of rows gives back the rows. *)
Lemma zip_rows_columns {R : Type} (f : nat -> R -> A) (k0 : nat)
    (ks : list nat) (rs : list R) :
  zip_rows (map (f k0) rs) (map (fun k => map (f k) rs) ks) =
    map (fun r => map (fun k => f k r) (k0 :: ks)) rs.
Proof.
  induction rs as [|r rs IH]; [reflexivity|].
  cbn [map zip_rows].
  change (map (fun k => f k r :: map (f k) rs) ks)
    with (map (fun k => map (f k) (r :: rs)) ks).
  now rewrite next_all_columns, IH.
Qed.

Lemma map_nth_seq (d : A) (l : list A) :
  map (fun k => nth k l d) (seq 0 (length l)) = l.
Proof.
  induction l as [|x l IH]; simpl; [reflexivity|].
  f_equal. rewrite <- seq_shift, map_map. exact IH.
Qed.

End Transposition.

Section Serialization.

Context {D St G : Type} `{SpaceOps D St} `{BaseOps G}.

Local Abbreviation tuple := (@t D St G).

Lemma decode_columns_run (ds : list D) (js : list value)
    (cols : list (list value)) :
  decodes ds js cols ->
  forall pre, decode_columns (length pre) ds (VList (pre ++ js)) = Ok cols.
Proof.
  induction 1 as [js|d ds j js col cols Hd _ IH]; intros pre; simpl;
    [reflexivity|].
  rewrite nth_error_app2 by lia. rewrite Nat.sub_diag. simpl. rewrite Hd. simpl.
  specialize (IH (pre ++ [j])).
  rewrite <- app_assoc, length_app, Nat.add_1_r in IH. simpl in IH.
  now rewrite IH.
Qed.

(** C5: [from_jsonable] decodes each column with its child and transposes:
    the [k]-th sample is the tuple of the [k]-th items of the decoded
    columns, in child order, and there are as many samples as the shortest
    decoded column has items. *)
Theorem from_jsonable_transposes (self : tuple) (js : list value)
    (cols : list (list value)) :
  decodes (descs self) js cols ->
  exists rows,
    from_jsonable self (VList js) = Ok (map VTuple rows)
    /\ (forall k row,
          nth_error rows k = Some row ->
          Forall2 (fun col x => nth_error col k = Some x) cols row)
    /\ (forall col, In col cols -> length rows <= length col)
    /\ (cols <> [] -> exists col, In col cols /\ length rows = length col).
Proof.
  intros Hdec. exists (zip_star cols).
  pose proof (decode_columns_run _ _ _ Hdec []) as E. simpl in E.
  unfold from_jsonable. rewrite E. simpl.
  split; [reflexivity|].
  destruct cols as [|c rest]; simpl.
  - repeat split.
    + intros k row Ek. now destruct k.
    + intros col [].
    + intros Hne. now destruct Hne.
  - destruct (zip_rows_length c rest) as [Hle Hex].
    repeat split.
    + apply zip_rows_nth.
    + exact Hle.
    + intros _. exact Hex.
Qed.

Lemma column_run (i : nat) (rows : list (list value)) :
  Forall (fun row => i < length row) rows ->
  column i (map VTuple rows) = Ok (map (fun row => nth i row VNone) rows).
Proof.
  induction 1 as [|row rows Hi _ IH]; simpl; [reflexivity|].
  rewrite (nth_error_nth' row VNone Hi). simpl. now rewrite IH.
Qed.

Lemma skipn_cons_inv {A : Type} (d : A) (i : nat) :
  forall (row rest : list A) (x : A),
    skipn i row = x :: rest ->
    i < length row /\ nth i row d = x /\ skipn (S i) row = rest.
Proof.
  induction i as [|i IH]; intros [|y row] rest x E; simpl in E;
    try discriminate.
  - injection E as <- <-. simpl. repeat split. lia.
  - destruct (IH row rest x E) as [Hlt [Hnth Hskip]].
    simpl. repeat split; [lia | assumption | assumption].
Qed.

(** Encoding a batch of valid rows column by column succeeds, and the
    children decode the result into the very columns of the batch. *)
Lemma encode_then_decode (ds : list D) :
  Forall codec_inverse ds ->
  forall (i : nat) (rows : list (list value)),
    Forall (fun row =>
              Forall2 (fun d x => sp_contains d x = Ok true) ds (skipn i row))
           rows ->
    exists js,
      encode_columns i ds (map VTuple rows) = Ok js
      /\ decodes ds js
           (map (fun k => map (fun row => nth k row VNone) rows)
                (seq i (length ds))).
Proof.
  induction 1 as [|d ds Hd _ IH]; intros i rows Hrows.
  - exists []. split; [reflexivity | constructor].
  - assert (Hparts : Forall (fun row => i < length row) rows
                     /\ Forall (fun x => sp_contains d x = Ok true)
                               (map (fun row => nth i row VNone) rows)
                     /\ Forall (fun row =>
                                  Forall2 (fun d x => sp_contains d x = Ok true)
                                          ds (skipn (S i) row)) rows).
    { clear -Hrows. induction Hrows as [|row rows Hrow _ IHr].
      - repeat split; constructor.
      - destruct IHr as [I1 [I2 I3]].
        inversion Hrow as [|? x ? rest Hx Hrest Ed Es]; subst.
        symmetry in Es.
        destruct (skipn_cons_inv VNone i row rest x Es) as [Hlt [Hnth Hskip]].
        repeat split; constructor; rewrite ?Hnth, ?Hskip; auto. }
    destruct Hparts as [Hlt [Hcol Hrest]].
    destruct (Hd _ Hcol) as [j [Hto Hfrom]].
    destruct (IH (S i) rows Hrest) as [js [E Hdec]].
    exists (j :: js). simpl.
    rewrite (column_run i rows Hlt). simpl. rewrite Hto. simpl.
    rewrite E. simpl. split; [reflexivity | now constructor].
Qed.

Lemma valid_samples_rows (self : tuple) (batch : list value) :
  Forall (valid_sample self) batch ->
  exists rows,
    batch = map VTuple rows
    /\ Forall (fun row =>
                 Forall2 (fun d x => sp_contains d x = Ok true) (descs self) row)
              rows.
Proof.
  induction 1 as [|smp batch [parts [-> Hc]] _ [rows [-> Hrows]]].
  - exists []. split; [reflexivity | constructor].
  - exists (parts :: rows). split; [reflexivity|].
    constructor; [|assumption].
    now apply (TupleSpec.contains_tuple_true self parts).
Qed.

(** C3, as the code has it: with at least one child, or on the empty batch,
    decoding the encoding of a batch of valid samples gives the batch back. *)
Theorem jsonable_roundtrip (self : tuple) (batch : list value) :
  spaces self <> [] \/ batch = [] ->
  Forall codec_inverse (descs self) ->
  Forall (valid_sample self) batch ->
  exists j,
    to_jsonable self batch = Ok j /\ from_jsonable self j = Ok batch.
Proof.
  intros Hne Hinv Hvalid.
  destruct (valid_samples_rows self batch Hvalid) as [rows [-> Hrows]].
  destruct (encode_then_decode (descs self) Hinv 0 rows Hrows) as [js [E Hdec]].
  exists (VList js). unfold to_jsonable, from_jsonable. rewrite E. simpl.
  split; [reflexivity|].
  pose proof (decode_columns_run _ _ _ Hdec []) as E'. simpl in E'.
  rewrite E'. simpl. do 2 f_equal.
  destruct (descs self) as [|d ds] eqn:Eds.
  - simpl. destruct Hne as [Hne | Hnil].
    + unfold descs in Eds. destruct (spaces self); [now destruct Hne | discriminate].
    + now destruct rows.
  - cbn [length seq map zip_star].
    rewrite (zip_rows_columns (fun k row => nth k row VNone) 0 (seq 1 (length ds)) rows).
    change (0 :: seq 1 (length ds)) with (seq 0 (length (d :: ds))).
    clear -Hrows. generalize dependent (d :: ds). intros ds' Hrows.
    induction Hrows as [|row rows Hrow _ IH]; cbn [map]; [reflexivity|].
    rewrite IH. f_equal.
    rewrite (Forall2_length Hrow). apply map_nth_seq.
Qed.

End Serialization.

(** ** The composite of [Discrete(2)] and [Discrete(3)] *)

Section Scenario.

Local Open Scope Z_scope.

(** The concrete scenario: [(1, 2)] is a member, [(1, 3)] and [(1, 2, 0)]
    are not. *)
Example contains_scenario :
  contains two_three (VTuple [VInt 1; VInt 2]) = Ok true
  /\ contains two_three (VTuple [VInt 1; VInt 3]) = Ok false
  /\ contains two_three (VTuple [VInt 1; VInt 2; VInt 0]) = Ok false
  /\ contains two_three (VList [VInt 1; VInt 2]) = Ok true.
Proof. repeat split. Qed.

Lemma seed_int_own_then_children_witness :
  seed (VInt 0) two_three =
    (Ok [VInt 0; VInt 1; VInt 2], Make [Child 2 1; Child 3 2] 2).
Proof.
  apply (seed_int_own_then_children two_three 0 (VInt 0) 0 2 [1; 2]
           [VInt 1; VInt 2] [Child 2 1; Child 3 2]).
  - reflexivity.
  - left. reflexivity.
  - apply (seeded_cons (Child 2 0) 1 (VInt 1) [] 1); [reflexivity|].
    apply (seeded_cons (Child 3 0) 2 (VInt 2) [] 2); [reflexivity|].
    apply seeded_nil.
Defined.

Lemma seed_None_concatenates_witness :
  seed VNone two_three =
    (Ok [VInt 1; VInt 1], Make [Child 2 1; Child 3 1] 0).
Proof.
  refine (proj1 (seed_None_concatenates two_three [[VInt 1]; [VInt 1]] _)).
  repeat constructor.
Defined.

Lemma seed_short_list_not_atomic_witness :
  seed (VList [VInt 1]) two_three =
    (Raise IndexError, Make [Child 2 1; Child 3 0] 0).
Proof.
  assert (Hlen : (length [VInt 1] < length (spaces two_three))%nat)
    by (simpl; lia).
  assert (HF : Forall seed_returns (combine (spaces two_three) [VInt 1]))
    by (constructor; [exists [VInt 1]; reflexivity | constructor]).
  exact (seed_short_list_not_atomic two_three [VInt 1] Hlen HF).
Defined.

(** The claim of C4 fails on a list longer than the number of children:
    the surplus entry is ignored and the call returns normally. *)
Lemma seed_accepts_longer_list :
  length [VInt 1; VInt 2; VInt 3] <> length (spaces two_three)
  /\ seed (VList [VInt 1; VInt 2; VInt 3]) two_three =
       (Ok [VInt 1; VInt 2], Make [Child 2 1; Child 3 2] 0).
Proof. split; [discriminate | reflexivity]. Qed.

Lemma sample_is_contained_witness :
  fst (sample two_three) = Ok (VTuple [VInt 0; VInt 0])
  /\ contains (snd (sample two_three)) (VTuple [VInt 0; VInt 0]) = Ok true.
Proof.
  assert (HF : Forall2 samples_member (spaces two_three) [VInt 0; VInt 0])
    by (repeat constructor).
  split.
  - exact (proj1 (sample_is_contained two_three [VInt 0; VInt 0] HF)).
  - exact (proj2 (proj2 (proj2
             (sample_is_contained two_three [VInt 0; VInt 0] HF)))).
Defined.

Lemma from_jsonable_transposes_witness :
  exists rows,
    from_jsonable two_three (VList [VList [VInt 1; VInt 0]; VList [VInt 2]])
      = Ok (map VTuple rows)
    /\ (forall k row,
          nth_error rows k = Some row ->
          Forall2 (fun col x => nth_error col k = Some x)
                  [[VInt 1; VInt 0]; [VInt 2]] row)
    /\ (forall col,
          In col [[VInt 1; VInt 0]; [VInt 2]] ->
          (length rows <= length col)%nat)
    /\ ([[VInt 1; VInt 0]; [VInt 2]] <> [] ->
        exists col,
          In col [[VInt 1; VInt 0]; [VInt 2]] /\ length rows = length col).
Proof.
  apply (from_jsonable_transposes two_three
           [VList [VInt 1; VInt 0]; VList [VInt 2]]
           [[VInt 1; VInt 0]; [VInt 2]]).
  unfold descs. simpl.
  apply decodes_cons; [reflexivity|].
  apply decodes_cons; [reflexivity|].
  apply decodes_nil.
Defined.

Lemma jsonable_roundtrip_witness :
  exists j,
    to_jsonable two_three [VTuple [VInt 1; VInt 2]; VTuple [VInt 0; VInt 1]]
      = Ok j
    /\ from_jsonable two_three j
       = Ok [VTuple [VInt 1; VInt 2]; VTuple [VInt 0; VInt 1]].
Proof.
  apply (jsonable_roundtrip two_three).
  - left. discriminate.
  - repeat constructor; intros col _; exists (VList col); split; reflexivity.
  - repeat constructor; eexists; split; reflexivity.
Defined.

(** The claim of C3 fails without children: every batch is encoded as the
    empty list of columns, which decodes to the empty batch. *)
Lemma roundtrip_forgets_batch_without_children :
  Forall (valid_sample no_children) [VTuple []]
  /\ Forall codec_inverse (descs no_children)
  /\ to_jsonable no_children [VTuple []] = Ok (VList [])
  /\ from_jsonable no_children (VList []) = Ok []
  /\ ~ (exists j,
          to_jsonable no_children [VTuple []] = Ok j
          /\ from_jsonable no_children j = Ok [VTuple []]).
Proof.
  repeat split.
  - repeat constructor. exists []. split; reflexivity.
  - constructor.
  - intros [j [Hto Hfrom]]. injection Hto as <-. discriminate Hfrom.
Qed.

Lemma contains_decides_membership_witness :
  exists b,
    contains two_three (VList [VInt 1; VInt 2]) = Ok b
    /\ (b = true <->
        exists parts,
          promote (VList [VInt 1; VInt 2]) = Ok (VTuple parts)
          /\ Forall2 (fun d p => sp_contains d p = Ok true)
                     (descs two_three) parts).
Proof.
  apply (contains_decides_membership two_three (VList [VInt 1; VInt 2])).
  - intros d v. destruct v; simpl; eauto.
  - discriminate.
Defined.

(** On the tiny platform the draw without replacement raises [ValueError]
    and the draw with replacement hands both children the same sub-seed. *)
Example draws_with_replacement :
  @draws Z tiny_platform 2 0 [0; 0] 2.
Proof. right. exists 0. split; reflexivity. Qed.

Example seed_int_on_tiny_platform :
  @seed Z Z Z Discrete.ops tiny_platform (VInt 0) two_three =
    (Ok [VInt 0; VInt 0; VInt 0], Make [Child 2 0; Child 3 0] 2).
Proof. reflexivity. Qed.

End Scenario.
End TupleSpec.

(** ** Further properties of the composite *)

Module TupleLaws.
Import Tuple.

Section Effects.

Context {D St G : Type} `{SpaceOps D St} `{BaseOps G}.

Local Abbreviation child := (@child D St).
Local Abbreviation tuple := (@t D St G).

Lemma seed_each_full (cs : list child) :
  forall (l pre acc : list value) (outs : list (list value)),
    length cs <= length l ->
    Forall2 (fun c_s out =>
               fst (sp_seed (desc (fst c_s)) (snd c_s) (prng (fst c_s))) = Ok out)
            (combine cs l) outs ->
    seed_each (pre ++ l) (length pre) cs acc =
      (Ok (acc ++ concat outs), map reseed (combine cs l)).
Proof.
  induction cs as [|c cs IH]; intros l pre acc outs Hlen HF.
  - inversion HF; subst. simpl. now rewrite app_nil_r.
  - destruct l as [|s l]; simpl in Hlen; [lia|].
    simpl in HF. inversion HF as [|? out ? outs' Hout HF']; subst.
    cbn [seed_each combine map]. unfold reseed at 1. simpl in Hout |- *.
    rewrite nth_error_app2 by lia. rewrite Nat.sub_diag. simpl.
    destruct (sp_seed (desc c) s (prng c)) as [o p]; simpl in *; subst o.
    specialize (IH l (pre ++ [s]) (acc ++ out) outs').
    rewrite <- app_assoc, length_app, Nat.add_1_r in IH. simpl in IH.
    rewrite IH by (assumption || lia). now rewrite app_assoc.
Qed.

(** Seeding with a list that has an entry for every child seeds each child
    with its own entry, from its own state, and returns the children's
    lists concatenated in order; the composite's generator is not touched. *)
Theorem seed_list_seeds_each_child (self : tuple) (l : list value)
    (outs : list (list value)) :
  length (spaces self) <= length l ->
  Forall2 (fun c_s out =>
             fst (sp_seed (desc (fst c_s)) (snd c_s) (prng (fst c_s))) = Ok out)
          (combine (spaces self) l) outs ->
  seed (VList l) self =
    (Ok (concat outs),
     {| spaces := map reseed (combine (spaces self) l);
        np_random := np_random self |}).
Proof.
  intros Hlen HF. unfold seed.
  pose proof (seed_each_full (spaces self) l [] [] outs Hlen HF) as E.
  simpl in E. now rewrite E.
Qed.

Lemma seed_each_descs (l : list value) (cs : list child) :
  forall i acc, map desc (snd (seed_each l i cs acc)) = map desc cs.
Proof.
  induction cs as [|c cs IH]; intros i acc; simpl; [reflexivity|].
  destruct (nth_error l i) as [s|]; [|reflexivity].
  destruct (sp_seed (desc c) s (prng c)) as [[out|e] p]; [|reflexivity].
  specialize (IH (S i) (acc ++ out)).
  destruct (seed_each l (S i) cs (acc ++ out)) as [r rest]. simpl in *.
  now rewrite IH.
Qed.

Lemma seed_subspaces_descs (cs : list child) :
  forall subs acc, map desc (snd (seed_subspaces cs subs acc)) = map desc cs.
Proof.
  induction cs as [|c cs IH]; intros subs acc; simpl; [reflexivity|].
  destruct subs as [|k ks]; [reflexivity|].
  destruct (sp_seed (desc c) (VInt k) (prng c)) as [[[|first more]|e] p];
    try reflexivity.
  specialize (IH ks (acc ++ [first])).
  destruct (seed_subspaces cs ks (acc ++ [first])) as [r rest]. simpl in *.
  now rewrite IH.
Qed.

Lemma seed_none_descs (cs : list child) :
  forall acc, map desc (snd (seed_none cs acc)) = map desc cs.
Proof.
  induction cs as [|c cs IH]; intros acc; simpl; [reflexivity|].
  destruct (sp_seed (desc c) VNone (prng c)) as [[out|e] p]; [|reflexivity].
  specialize (IH (acc ++ out)).
  destruct (seed_none cs (acc ++ out)) as [r rest]. simpl in *.
  now rewrite IH.
Qed.

Lemma sample_each_descs (cs : list child) :
  map desc (snd (sample_each cs)) = map desc cs.
Proof.
  induction cs as [|c cs IH]; simpl; [reflexivity|].
  destruct (sp_sample (desc c) (prng c)) as [[x|e] p]; [|reflexivity].
  destruct (sample_each cs) as [[xs|e] rest]; simpl in *; now rewrite IH.
Qed.

Lemma seed_descs (self : tuple) (v : value) :
  descs (snd (seed v self)) = descs self.
Proof.
  unfold descs, seed. destruct v; try reflexivity.
  - pose proof (seed_none_descs (spaces self) []) as E.
    destruct (seed_none (spaces self) []). exact E.
  - destruct (Space_seed (VBool b) (np_random self)) as [[seeds|e] g];
      [|reflexivity].
    destruct (draw_subseeds (length (spaces self)) g) as [[subs|e] g'];
      [|reflexivity].
    pose proof (seed_subspaces_descs (spaces self) subs seeds) as E.
    destruct (seed_subspaces (spaces self) subs seeds). exact E.
  - destruct (Space_seed (VInt z) (np_random self)) as [[seeds|e] g];
      [|reflexivity].
    destruct (draw_subseeds (length (spaces self)) g) as [[subs|e] g'];
      [|reflexivity].
    pose proof (seed_subspaces_descs (spaces self) subs seeds) as E.
    destruct (seed_subspaces (spaces self) subs seeds). exact E.
  - pose proof (seed_each_descs items (spaces self) 0 []) as E.
    destruct (seed_each items 0 (spaces self) []). exact E.
Qed.

Lemma sample_descs (self : tuple) :
  descs (snd (sample self)) = descs self.
Proof.
  unfold descs, sample. pose proof (sample_each_descs (spaces self)) as E.
  destruct (sample_each (spaces self)) as [[xs|e] cs]; exact E.
Qed.

Lemma contains_reads_descs (a b : tuple) (x : value) :
  descs a = descs b -> contains a x = contains b x.
Proof.
  intros E. unfold contains. rewrite E.
  replace (length (spaces a)) with (length (spaces b)); [reflexivity|].
  unfold descs in E. rewrite <- (length_map desc (spaces b)), <- E.
  apply length_map.
Qed.

(** Whatever the seed and whether or not the call raises, [seed] leaves the
    children what they are, and so does [sample]: the number of children,
    the answers of [contains] and the encoding of batches are the same
    before and after. *)
Theorem seed_and_sample_keep_the_children (self : tuple) (v : value) :
  descs (snd (seed v self)) = descs self
  /\ descs (snd (sample self)) = descs self
  /\ len (snd (seed v self)) = len self
  /\ len (snd (sample self)) = len self
  /\ (forall x, contains (snd (seed v self)) x = contains self x)
  /\ (forall x, contains (snd (sample self)) x = contains self x)
  /\ (forall batch, to_jsonable (snd (seed v self)) batch = to_jsonable self batch)
  /\ (forall batch, to_jsonable (snd (sample self)) batch = to_jsonable self batch).
Proof.
  pose proof (seed_descs self v) as E1. pose proof (sample_descs self) as E2.
  assert (L : forall a b : tuple, descs a = descs b -> len a = len b).
  { intros a b E. unfold len, descs in *.
    rewrite <- (length_map desc (spaces a)), E. apply length_map. }
  repeat split; auto using contains_reads_descs.
  - intros batch. unfold to_jsonable. now rewrite E1.
  - intros batch. unfold to_jsonable. now rewrite E2.
Qed.


Lemma all_contains_prefix (ds_before : list D) :
  forall (before : list value) (ds : list D) (parts : list value),
    Forall2 (fun d x => sp_contains d x = Ok true) ds_before before ->
    all_contains (ds_before ++ ds) (before ++ parts) = all_contains ds parts.
Proof.
  induction ds_before as [|d0 ds0 IH]; intros before ds parts HF;
    inversion HF as [|? x0 ? before' Hx HF']; subst; simpl; [reflexivity|].
  rewrite Hx. simpl. now apply IH.
Qed.

(** [contains] consults the children from left to right and stops at the
    first element that is not a member: that child's [False] is the answer
    and that child's exception is the caller's, whatever the later children
    would have said. *)
Theorem contains_stops_at_first_non_member (self : tuple)
    (ds_before ds_after : list D) (d : D)
    (before after : list value) (x : value) :
  descs self = ds_before ++ d :: ds_after ->
  length after = length ds_after ->
  Forall2 (fun d x => sp_contains d x = Ok true) ds_before before ->
  (sp_contains d x = Ok false ->
     contains self (VTuple (before ++ x :: after)) = Ok false)
  /\ (forall e, sp_contains d x = Raise e ->
     contains self (VTuple (before ++ x :: after)) = Raise e).
Proof.
  intros Hd Hafter HF.
  assert (Hlen : (length (before ++ x :: after) =? length (spaces self))%nat = true).
  { apply Nat.eqb_eq. unfold descs in Hd.
    rewrite <- (length_map desc (spaces self)), Hd, !length_app.
    simpl. rewrite (Forall2_length HF). lia. }
  unfold contains. simpl. rewrite Hlen, Hd, (all_contains_prefix _ _ _ _ HF).
  simpl. split; [intros -> | intros e ->]; reflexivity.
Qed.

End Effects.

Section Batches.

Context {D St G : Type} `{SpaceOps D St} `{BaseOps G}.

Local Abbreviation tuple := (@t D St G).

Lemma decode_columns_length (ds : list D) (data : value) :
  forall i cols,
    decode_columns i ds data = Ok cols -> length cols = length ds.
Proof.
  induction ds as [|d ds IH]; intros i cols E; simpl in E.
  - now injection E as <-.
  - destruct (getitem data i) as [j|e]; [|discriminate]. simpl in E.
    destruct (sp_from_jsonable d j) as [col|e]; [|discriminate]. simpl in E.
    destruct (decode_columns (S i) ds data) as [cols'|e] eqn:E';
      [|discriminate].
    simpl in E. injection E as <-. simpl. f_equal. now apply (IH (S i)).
Qed.

Lemma zip_star_row_length {A : Type} (cols : list (list A)) (row : list A) :
  In row (zip_star cols) -> length row = length cols.
Proof.
  destruct cols as [|c rest]; simpl; [intros []|].
  intros Hin. destruct (In_nth_error _ _ Hin) as [k Ek].
  symmetry. exact (Forall2_length (TupleSpec.zip_rows_nth c rest k row Ek)).
Qed.

(** Whatever the data, every sample that [from_jsonable] returns is an
    ordered tuple with exactly one element per child. *)
Theorem from_jsonable_returns_full_tuples (self : tuple) (data : value)
    (out : list value) :
  from_jsonable self data = Ok out ->
  Forall (fun smp => exists parts, smp = VTuple parts /\ length parts = len self)
         out.
Proof.
  unfold from_jsonable. intros E.
  destruct (decode_columns 0 (descs self) data) as [cols|e] eqn:Ed;
    [|discriminate].
  simpl in E. injection E as <-.
  apply decode_columns_length in Ed.
  apply Forall_forall. intros smp Hin.
  apply in_map_iff in Hin. destruct Hin as [row [<- Hin]].
  exists row. split; [reflexivity|].
  rewrite (zip_star_row_length _ _ Hin), Ed.
  unfold len, descs. apply length_map.
Qed.

Lemma decode_columns_short (ds : list D) :
  forall (js pre : list value),
    length js < length ds ->
    Forall (fun d_j => exists col, sp_from_jsonable (fst d_j) (snd d_j) = Ok col)
           (combine ds js) ->
    decode_columns (length pre) ds (VList (pre ++ js)) = Raise IndexError.
Proof.
  induction ds as [|d ds IH]; intros js pre Hlen HF; simpl in Hlen; [lia|].
  destruct js as [|j js]; simpl.
  - rewrite app_nil_r.
    replace (nth_error pre (length pre)) with (@None value)
      by (symmetry; apply nth_error_None; lia).
    reflexivity.
  - rewrite nth_error_app2 by lia. rewrite Nat.sub_diag. simpl.
    simpl in HF. inversion HF as [|? ? [col Hcol] HF']; subst.
    simpl in Hcol. rewrite Hcol. simpl.
    specialize (IH js (pre ++ [j])).
    rewrite <- app_assoc, length_app, Nat.add_1_r in IH. simpl in IH, Hlen.
    rewrite IH by (assumption || lia). reflexivity.
Qed.

(** Data with fewer columns than there are children is an [IndexError],
    raised after the columns that are there were decoded. *)
Theorem from_jsonable_short_data_raises (self : tuple) (js : list value) :
  length js < len self ->
  Forall (fun d_j => exists col, sp_from_jsonable (fst d_j) (snd d_j) = Ok col)
         (combine (descs self) js) ->
  from_jsonable self (VList js) = Raise IndexError.
Proof.
  intros Hlen HF. unfold from_jsonable.
  pose proof (decode_columns_short (descs self) js []) as E. simpl in E.
  rewrite E; [reflexivity | | assumption].
  unfold descs. rewrite length_map. exact Hlen.
Qed.

Lemma decode_columns_surplus (ds : list D) :
  forall (js extra pre : list value),
    length js = length ds ->
    decode_columns (length pre) ds (VList (pre ++ js ++ extra)) =
    decode_columns (length pre) ds (VList (pre ++ js)).
Proof.
  induction ds as [|d ds IH]; intros js extra pre Hlen; simpl; [reflexivity|].
  destruct js as [|j js]; simpl in Hlen; [discriminate|].
  rewrite (nth_error_app2 pre (j :: js ++ extra)) by lia.
  rewrite (nth_error_app2 pre (j :: js)) by lia.
  rewrite Nat.sub_diag. simpl.
  destruct (sp_from_jsonable d j) as [col|e]; [|reflexivity]. simpl.
  pose proof (IH js extra (pre ++ [j])) as IH'.
  rewrite <- !app_assoc, length_app, Nat.add_1_r in IH'. simpl in IH'.
  rewrite IH' by lia. reflexivity.
Qed.

(** [from_jsonable] reads one column per child and nothing else: columns
    beyond the number of children are ignored, and a composite without
    children returns the empty batch on any data at all. *)
Theorem from_jsonable_ignores_surplus_columns (self : tuple) :
  (forall js extra,
     length js = len self ->
     from_jsonable self (VList (js ++ extra)) = from_jsonable self (VList js))
  /\ (spaces self = [] -> forall data, from_jsonable self data = Ok []).
Proof.
  split.
  - intros js extra Hlen. unfold from_jsonable.
    pose proof (decode_columns_surplus (descs self) js extra []) as E.
    simpl in E. rewrite E; [reflexivity|].
    unfold descs. rewrite length_map. exact Hlen.
  - intros Hnil data. unfold from_jsonable, descs. now rewrite Hnil.
Qed.

Lemma column_raises (i : nat) (rows : list (list value)) :
  Forall (fun row => i <= length row) rows ->
  Exists (fun row => ~ i < length row) rows ->
  column i (map VTuple rows) = Raise IndexError.
Proof.
  induction 1 as [|row rows Hi _ IH]; intros Hex; inversion Hex; subst; simpl.
  - replace (nth_error row i) with (@None value)
      by (symmetry; apply nth_error_None; lia).
    reflexivity.
  - destruct (nth_error row i); simpl; [|reflexivity].
    now rewrite IH.
Qed.

Lemma encode_columns_short (ds : list D) (rows : list (list value)) :
  (forall d col, In d ds -> exists j, sp_to_jsonable d col = Ok j) ->
  forall i,
    Forall (fun row => i <= length row) rows ->
    Exists (fun row => length row < i + length ds) rows ->
    encode_columns i ds (map VTuple rows) = Raise IndexError.
Proof.
  induction ds as [|d ds IH]; intros Henc i Hall Hex.
  - exfalso. apply Exists_exists in Hex. destruct Hex as [row [Hin Hlt]].
    rewrite Forall_forall in Hall. specialize (Hall row Hin). simpl in Hlt. lia.
  - simpl.
    destruct (Forall_Exists_dec (fun row => i < length row)
                (fun row => lt_dec i (length row)) rows) as [Hlt | Hnot].
    + rewrite (TupleSpec.column_run i rows Hlt). simpl.
      destruct (Henc d (map (fun row => nth i row VNone) rows)) as [j ->];
        [now left|]. simpl.
      rewrite (IH (fun d0 col Hin => Henc d0 col (or_intror Hin)) (S i)).
      * reflexivity.
      * eapply Forall_impl; [|exact Hlt]. simpl. intros; lia.
      * eapply Exists_impl; [|exact Hex]. simpl. intros; lia.
    + now rewrite (column_raises i rows Hall Hnot).
Qed.

(** A batch of tuples one of which has fewer elements than there are
    children cannot be encoded: [to_jsonable] raises [IndexError] (the
    children's encoders returning normally). *)
Theorem to_jsonable_short_sample_raises (self : tuple)
    (rows : list (list value)) :
  (forall d col, In d (descs self) -> exists j, sp_to_jsonable d col = Ok j) ->
  Exists (fun row => length row < len self) rows ->
  to_jsonable self (map VTuple rows) = Raise IndexError.
Proof.
  intros Henc Hex. unfold to_jsonable.
  rewrite (encode_columns_short (descs self) rows Henc 0); [reflexivity | |].
  - apply Forall_forall. intros; lia.
  - unfold descs. rewrite length_map. exact Hex.
Qed.

Lemma column_firstn (n i : nat) (rows : list (list value)) :
  i < n ->
  column i (map VTuple (map (firstn n) rows)) = column i (map VTuple rows).
Proof.
  intros Hi. induction rows as [|row rows IH]; simpl; [reflexivity|].
  rewrite nth_error_firstn, IH.
  now replace (i <? n)%nat with true by (symmetry; apply Nat.ltb_lt; exact Hi).
Qed.

Lemma encode_columns_firstn (n : nat) (rows : list (list value)) (ds : list D) :
  forall i,
    i + length ds <= n ->
    encode_columns i ds (map VTuple (map (firstn n) rows)) =
    encode_columns i ds (map VTuple rows).
Proof.
  induction ds as [|d ds IH]; intros i Hi; simpl; [reflexivity|].
  simpl in Hi. rewrite column_firstn by lia. rewrite (IH (S i)) by lia.
  reflexivity.
Qed.

(** [to_jsonable] reads one element per child of every sample and nothing
    else: what a sample holds beyond the number of children is dropped
    without notice. *)
Theorem to_jsonable_ignores_surplus_elements (self : tuple)
    (rows : list (list value)) :
  to_jsonable self (map VTuple rows) =
  to_jsonable self (map VTuple (map (firstn (len self)) rows)).
Proof.
  unfold to_jsonable. rewrite encode_columns_firstn; [reflexivity|].
  unfold len, descs. rewrite length_map. simpl. lia.
Qed.

Lemma encode_columns_length (ds : list D) (sample_n : list value) :
  forall i js,
    encode_columns i ds sample_n = Ok js -> length js = length ds.
Proof.
  induction ds as [|d ds IH]; intros i js E; simpl in E.
  - now injection E as <-.
  - destruct (column i sample_n) as [col|e]; [|discriminate]. simpl in E.
    destruct (sp_to_jsonable d col) as [j|e]; [|discriminate]. simpl in E.
    destruct (encode_columns (S i) ds sample_n) as [js'|e] eqn:E';
      [|discriminate].
    simpl in E. injection E as <-. simpl. f_equal. now apply (IH (S i)).
Qed.

Lemma encode_columns_entries (ds : list D) (sample_n : list value) :
  forall i js,
    encode_columns i ds sample_n = Ok js ->
    forall k d,
      nth_error ds k = Some d ->
      exists col j,
        column (i + k) sample_n = Ok col
        /\ sp_to_jsonable d col = Ok j
        /\ nth_error js k = Some j.
Proof.
  induction ds as [|d0 ds IH]; intros i js E k d Hk; simpl in E.
  - now destruct k.
  - destruct (column i sample_n) as [col|e] eqn:Ec; [|discriminate].
    simpl in E.
    destruct (sp_to_jsonable d0 col) as [j|e] eqn:Ej; [|discriminate].
    simpl in E.
    destruct (encode_columns (S i) ds sample_n) as [js'|e] eqn:E';
      [|discriminate].
    simpl in E. injection E as <-.
    destruct k as [|k]; simpl in Hk.
    + injection Hk as <-. exists col, j. rewrite Nat.add_0_r. auto.
    + destruct (IH (S i) js' E' k d Hk) as [col' [j' [H1 [H2 H3]]]].
      exists col', j'. rewrite Nat.add_succ_r. auto.
Qed.

(** The encoding is column-major: when [to_jsonable] returns, it returns a
    list with exactly one entry per child, and entry [k] is child [k]'s own
    encoding of the [k]-th elements of all samples. *)
Theorem to_jsonable_is_column_major (self : tuple) (sample_n : list value)
    (j : value) :
  to_jsonable self sample_n = Ok j ->
  exists js,
    j = VList js
    /\ length js = len self
    /\ forall k d,
         nth_error (descs self) k = Some d ->
         exists col jk,
           column k sample_n = Ok col
           /\ sp_to_jsonable d col = Ok jk
           /\ nth_error js k = Some jk.
Proof.
  unfold to_jsonable. intros E.
  destruct (encode_columns 0 (descs self) sample_n) as [js|e] eqn:Ee;
    [|discriminate].
  simpl in E. injection E as <-. exists js. split; [reflexivity|]. split.
  - rewrite (encode_columns_length _ _ _ _ Ee). unfold len, descs.
    apply length_map.
  - intros k d Hk. exact (encode_columns_entries _ _ 0 js Ee k d Hk).
Qed.

Lemma contains_true_promotes (self : tuple) (smp : value) :
  contains self smp = Ok true ->
  exists row,
    promote smp = Ok (VTuple row)
    /\ Forall2 (fun d x => sp_contains d x = Ok true) (descs self) row.
Proof.
  intros Hc.
  destruct smp as [| | | |parts|parts|z|parts]; try discriminate Hc;
    exists parts; (split; [reflexivity|]);
    now apply (TupleSpec.contains_tuple_true self parts).
Qed.

Lemma column_promoted (i : nat) (batch : list value)
    (rows : list (list value)) :
  Forall2 (fun smp row => promote smp = Ok (VTuple row)) batch rows ->
  column i batch = column i (map VTuple rows).
Proof.
  induction 1 as [|smp row batch rows Hp _ IH]; simpl; [reflexivity|].
  rewrite IH.
  destruct smp; simpl in Hp; try discriminate Hp; now injection Hp as <-.
Qed.

Lemma encode_columns_promoted (batch : list value) (rows : list (list value))
    (ds : list D) :
  Forall2 (fun smp row => promote smp = Ok (VTuple row)) batch rows ->
  forall i, encode_columns i ds batch = encode_columns i ds (map VTuple rows).
Proof.
  intros HF. induction ds as [|d ds IH]; intros i; simpl; [reflexivity|].
  now rewrite (column_promoted i batch rows HF), IH.
Qed.

Lemma roundtrip_rows (self : tuple) (rows : list (list value)) :
  spaces self <> [] \/ rows = [] ->
  Forall codec_inverse (descs self) ->
  Forall (fun row =>
            Forall2 (fun d x => sp_contains d x = Ok true) (descs self) row)
         rows ->
  exists js,
    encode_columns 0 (descs self) (map VTuple rows) = Ok js
    /\ from_jsonable self (VList js) = Ok (map VTuple rows).
Proof.
  intros Hne Hinv Hrows.
  destruct (TupleSpec.encode_then_decode (descs self) Hinv 0 rows Hrows)
    as [js [E Hdec]].
  exists js. split; [assumption|]. unfold from_jsonable.
  pose proof (TupleSpec.decode_columns_run _ _ _ Hdec []) as E'. simpl in E'.
  rewrite E'. simpl. do 2 f_equal.
  destruct (descs self) as [|d ds] eqn:Eds.
  - simpl. destruct Hne as [Hne | Hnil].
    + unfold descs in Eds. destruct (spaces self); [now destruct Hne | discriminate].
    + now subst rows.
  - cbn [length seq map zip_star].
    rewrite (TupleSpec.zip_rows_columns (fun k row => nth k row VNone) 0
               (seq 1 (length ds)) rows).
    change (0 :: seq 1 (length ds)) with (seq 0 (length (d :: ds))).
    clear -Hrows. generalize dependent (d :: ds). intros ds' Hrows.
    induction Hrows as [|row rows Hrow _ IH]; cbn [map]; [reflexivity|].
    rewrite IH. f_equal.
    rewrite (Forall2_length Hrow). apply TupleSpec.map_nth_seq.
Qed.

(** The round trip normalises: a batch whose samples the composite contains
    (tuples, but also lists and arrays) comes back from
    [from_jsonable(to_jsonable(batch))] with every sample promoted to a
    tuple of the same elements. *)
Theorem roundtrip_promotes_samples_to_tuples (self : tuple)
    (batch : list value) :
  spaces self <> [] \/ batch = [] ->
  Forall codec_inverse (descs self) ->
  Forall (fun smp => contains self smp = Ok true) batch ->
  exists j rows,
    to_jsonable self batch = Ok j
    /\ Forall2 (fun smp row => promote smp = Ok (VTuple row)) batch rows
    /\ from_jsonable self j = Ok (map VTuple rows).
Proof.
  intros Hne Hinv Hvalid.
  assert (Hrows : exists rows,
             Forall2 (fun smp row => promote smp = Ok (VTuple row)) batch rows
             /\ Forall (fun row =>
                          Forall2 (fun d x => sp_contains d x = Ok true)
                                  (descs self) row) rows).
  { clear Hne. induction Hvalid as [|smp batch Hc _ [rows [HP HR]]].
    - exists []. split; constructor.
    - destruct (contains_true_promotes self smp Hc) as [row [Hp Hrow]].
      exists (row :: rows). split; constructor; assumption. }
  destruct Hrows as [rows [HP HR]].
  assert (Hne' : spaces self <> [] \/ rows = []).
  { destruct Hne as [Hne | ->]; [now left | right]. now inversion HP. }
  destruct (roundtrip_rows self rows Hne' Hinv HR) as [js [E1 E2]].
  exists (VList js), rows. repeat split; try assumption.
  unfold to_jsonable.
  now rewrite (encode_columns_promoted batch rows (descs self) HP 0), E1.
Qed.

End Batches.

Section Identity.

Context {D St G : Type} `{SpaceOps D St} `{BaseOps G}.

Local Abbreviation child := (@child D St).
Local Abbreviation tuple := (@t D St G).

Lemma spaces_eq_refl (xs : list D) :
  (forall x, sp_eq x x = true) -> spaces_eq xs xs = true.
Proof.
  intros Hr. induction xs as [|x xs IH]; simpl; [reflexivity|].
  now rewrite Hr, IH.
Qed.

Lemma spaces_eq_sym (xs : list D) :
  (forall x y, sp_eq x y = sp_eq y x) ->
  forall ys, spaces_eq xs ys = spaces_eq ys xs.
Proof.
  intros Hs. induction xs as [|x xs IH]; intros [|y ys]; simpl; try reflexivity.
  now rewrite Hs, IH.
Qed.

Lemma spaces_eq_trans (xs : list D) :
  (forall x y z, sp_eq x y = true -> sp_eq y z = true -> sp_eq x z = true) ->
  forall ys zs,
    spaces_eq xs ys = true -> spaces_eq ys zs = true -> spaces_eq xs zs = true.
Proof.
  intros Ht. induction xs as [|x xs IH]; intros [|y ys] [|z zs]; simpl;
    try discriminate; try reflexivity.
  rewrite !andb_true_iff. intros [E1 E2] [E3 E4]. split.
  - exact (Ht x y z E1 E3).
  - exact (IH ys zs E2 E4).
Qed.

(** [__eq__] between composites is reflexive, symmetric and transitive as
    soon as the children's [==] is, and it looks at the children only: the
    states of the PRNGs play no part, so seeding or sampling a composite
    never changes what it is equal to. *)
Theorem eq_is_an_equivalence_blind_to_PRNGs :
  ((forall x, sp_eq x x = true) ->
     forall a : tuple, eq a (ObjTuple a) = true)
  /\ ((forall x y, sp_eq x y = sp_eq y x) ->
     forall a b : tuple, eq a (ObjTuple b) = eq b (ObjTuple a))
  /\ ((forall x y z, sp_eq x y = true -> sp_eq y z = true -> sp_eq x z = true) ->
     forall a b c : tuple,
       eq a (ObjTuple b) = true -> eq b (ObjTuple c) = true ->
       eq a (ObjTuple c) = true)
  /\ (forall (a b : tuple) (v : value),
        eq (snd (seed v a)) (ObjTuple b) = eq a (ObjTuple b)
        /\ eq a (ObjTuple (snd (seed v b))) = eq a (ObjTuple b)
        /\ eq (snd (sample a)) (ObjTuple b) = eq a (ObjTuple b)
        /\ eq a (ObjTuple (snd (sample b))) = eq a (ObjTuple b)).
Proof.
  split; [|split; [|split]].
  - intros Hr a. simpl. now apply spaces_eq_refl.
  - intros Hs a b. simpl. now apply spaces_eq_sym.
  - intros Ht a b c. simpl. now apply spaces_eq_trans.
  - intros a b v. simpl.
    now rewrite !seed_descs, !sample_descs.
Qed.

Lemma tuple_index_in_range {A : Type} (l : list A) (index : Z) :
  (- Z.of_nat (length l) <= index < Z.of_nat (length l))%Z ->
  exists x,
    TupleObj.tuple_index l index = Ok x
    /\ nth_error l (Z.to_nat (index mod Z.of_nat (length l))) = Some x.
Proof.
  intros Hr. unfold TupleObj.tuple_index.
  set (n := Z.of_nat (length l)) in *.
  assert (Hi : exists i, (0 <= i < n)%Z
                 /\ (if (index <? 0)%Z then (index + n)%Z else index) = i
                 /\ (index mod n)%Z = i).
  { destruct (index <? 0)%Z eqn:E.
    - apply Z.ltb_lt in E. exists (index + n)%Z. repeat split; try lia.
      symmetry. apply (Z.mod_unique_pos index n (-1) (index + n)); lia.
    - apply Z.ltb_ge in E. exists index. repeat split; try lia.
      apply Z.mod_small. lia. }
  destruct Hi as [i [Hi [-> ->]]].
  replace ((i <? 0) || (n <=? i))%Z with false
    by (symmetry; apply orb_false_iff; split;
        [apply Z.ltb_ge | apply Z.leb_gt]; lia).
  destruct (nth_error l (Z.to_nat i)) as [x|] eqn:E; [eauto|].
  apply nth_error_None in E. subst n. lia.
Qed.

Lemma tuple_index_out_of_range {A : Type} (l : list A) (index : Z) :
  ~ (- Z.of_nat (length l) <= index < Z.of_nat (length l))%Z ->
  TupleObj.tuple_index l index = Raise IndexError.
Proof.
  intros Hr. unfold TupleObj.tuple_index.
  set (n := Z.of_nat (length l)) in *.
  destruct (index <? 0)%Z eqn:E.
  - apply Z.ltb_lt in E.
    replace ((index + n <? 0) || (n <=? index + n))%Z with true; [reflexivity|].
    symmetry. apply orb_true_iff. left. apply Z.ltb_lt. lia.
  - apply Z.ltb_ge in E.
    replace ((index <? 0) || (n <=? index))%Z with true; [reflexivity|].
    symmetry. apply orb_true_iff. right. apply Z.leb_le. lia.
Qed.

(** Indexing a composite with [len] children: an index in [-len, len)
    returns the child at position [index mod len] (so [-1] is the last
    child), and any other index is an [IndexError]. *)
Theorem getitem_wraps_negative_indices (self : tuple) (index : Z) :
  ((- Z.of_nat (len self) <= index < Z.of_nat (len self))%Z ->
     exists c,
       TupleObj.getitem self index = Ok c
       /\ nth_error (spaces self) (Z.to_nat (index mod Z.of_nat (len self)))
          = Some c)
  /\ (~ (- Z.of_nat (len self) <= index < Z.of_nat (len self))%Z ->
     TupleObj.getitem self index = Raise IndexError).
Proof.
  split.
  - apply tuple_index_in_range.
  - apply tuple_index_out_of_range.
Qed.

Lemma length_append (a b : string) :
  String.length (String.append a b) = String.length a + String.length b.
Proof. induction a as [|c a IH]; simpl; [reflexivity | now rewrite IH]. Qed.

Lemma join_length (sep : string) (parts : list string) :
  String.length (TupleObj.join sep parts) =
    list_sum (map String.length parts)
    + String.length sep * (length parts - 1).
Proof.
  induction parts as [|p rest IH]; [simpl; lia|].
  destruct rest as [|q rest].
  - simpl. lia.
  - change (TupleObj.join sep (p :: q :: rest))
      with (String.append p (String.append sep (TupleObj.join sep (q :: rest)))).
    rewrite !length_append, IH. cbn [map list_sum length fold_right].
    lia.
Qed.

Lemma append_empty_r (a : string) : String.append a EmptyString = a.
Proof. induction a as [|c a IH]; simpl; [reflexivity | now rewrite IH]. Qed.

Lemma append_cancel_r (c : string) :
  forall a b, String.append a c = String.append b c -> a = b.
Proof.
  intros a. induction a as [|x a IH]; intros b E.
  - destruct b as [|y b]; [reflexivity|]. exfalso.
    apply (f_equal String.length) in E. rewrite !length_append in E.
    simpl in E. lia.
  - destruct b as [|y b].
    + exfalso. apply (f_equal String.length) in E. rewrite !length_append in E.
      simpl in E. lia.
    + simpl in E. injection E as <- E. f_equal. now apply IH.
Qed.

Lemma split_at_first_comma (p : string) :
  forall q s s',
    TupleObj.comma_free p -> TupleObj.comma_free q ->
    TupleObj.comma_led s -> TupleObj.comma_led s' ->
    String.append p s = String.append q s' -> p = q /\ s = s'.
Proof.
  induction p as [|c p IH]; intros q s s' Hp Hq Hs Hs' E.
  - destruct q as [|c' q]; [now split|]. exfalso. simpl in E, Hq.
    destruct Hs as [-> | [rest ->]]; [discriminate|].
    injection E as <- _. now destruct Hq.
  - destruct q as [|c' q]; simpl in E, Hp.
    + exfalso. destruct Hs' as [-> | [rest ->]]; [discriminate|].
      injection E as -> _. now destruct Hp.
    + injection E as <- E. simpl in Hq.
      destruct (IH q s s' (proj2 Hp) (proj2 Hq) Hs Hs' E) as [-> ->].
      now split.
Qed.

Lemma join_cons (p : string) (rest : list string) :
  TupleObj.join ", " (p :: rest) =
    String.append p
      match rest with
      | [] => EmptyString
      | _ :: _ => String.append ", " (TupleObj.join ", " rest)
      end.
Proof. destruct rest; [now rewrite append_empty_r | reflexivity]. Qed.

Lemma join_tail_comma_led (rest : list string) :
  TupleObj.comma_led match rest with
            | [] => EmptyString
            | _ :: _ => String.append ", " (TupleObj.join ", " rest)
            end.
Proof. destruct rest; [now left | right; simpl; eauto]. Qed.

Lemma join_injective (ps : list string) :
  forall qs,
    Forall (fun p => TupleObj.comma_free p /\ p <> EmptyString) ps ->
    Forall (fun p => TupleObj.comma_free p /\ p <> EmptyString) qs ->
    TupleObj.join ", " ps = TupleObj.join ", " qs -> ps = qs.
Proof.
  induction ps as [|p ps IH]; intros qs Hps Hqs E.
  - destruct qs as [|q qs]; [reflexivity|]. exfalso.
    inversion Hqs as [|? ? [_ Hq] _]; subst. rewrite join_cons in E.
    destruct q; [now apply Hq | discriminate].
  - destruct qs as [|q qs].
    + exfalso. inversion Hps as [|? ? [_ Hp] _]; subst. rewrite join_cons in E.
      destruct p; [now apply Hp | discriminate].
    + inversion Hps as [|? ? [Hp _] Hps']; subst.
      inversion Hqs as [|? ? [Hq _] Hqs']; subst.
      rewrite !join_cons in E.
      destruct (split_at_first_comma p q _ _ Hp Hq
                  (join_tail_comma_led ps) (join_tail_comma_led qs) E)
        as [-> Et].
      f_equal. destruct ps as [|p' ps], qs as [|q' qs];
        try reflexivity; try discriminate.
      simpl in Et. injection Et as Et. now apply IH.
Qed.

(** The rendering tells composites apart: when the children's renderings
    are non-empty and hold no comma, two composites that render alike have
    the same number of children and, child by child in order, children that
    render alike. *)
Theorem repr_tells_children_apart (str_of : D -> string) (a b : tuple) :
  Forall (fun d => TupleObj.comma_free (str_of d) /\ str_of d <> EmptyString)
         (descs a) ->
  Forall (fun d => TupleObj.comma_free (str_of d) /\ str_of d <> EmptyString)
         (descs b) ->
  TupleObj.repr str_of a = TupleObj.repr str_of b ->
  map str_of (descs a) = map str_of (descs b).
Proof.
  intros Ha Hb E. unfold TupleObj.repr in E. simpl in E.
  injection E as E. apply append_cancel_r in E.
  apply join_injective; [| |assumption].
  - clear -Ha. induction Ha; simpl; constructor; auto.
  - clear -Hb. induction Hb; simpl; constructor; auto.
Qed.

Lemma assert_spaces_all (cs : list child) :
  TupleObj.assert_spaces (map TupleObj.IsSpace cs) = Ok cs.
Proof.
  induction cs as [|c cs IH]; simpl; [reflexivity | now rewrite IH].
Qed.

Lemma assert_spaces_rejects (elems : list (@TupleObj.element D St)) (v : value) :
  In (TupleObj.NotSpace v) elems ->
  TupleObj.assert_spaces elems =
    Raise (AssertionError "Elements of the tuple must be instances of gym.Space").
Proof.
  induction elems as [|e elems IH]; intros Hin; [destruct Hin|].
  destruct e as [c|v']; simpl; [|reflexivity].
  destruct Hin as [E|Hin]; [discriminate|]. now rewrite (IH Hin).
Qed.

(** Construction refuses an iterable that holds anything but spaces, with
    an [AssertionError], whatever the seed; it does so before seeding, so
    the spaces that were in the iterable keep their PRNG states. *)
Theorem init_rejects_non_spaces (elems : list TupleObj.element) (v : value)
    (seed : value) (g0 : G) :
  In (TupleObj.NotSpace v) elems ->
  TupleObj.init elems seed g0 =
    (Raise (AssertionError "Elements of the tuple must be instances of gym.Space"),
     elems).
Proof.
  intros Hin. unfold TupleObj.init.
  now rewrite (assert_spaces_rejects elems v Hin).
Qed.

(** Constructed from spaces only and without a seed, the composite holds
    exactly the given spaces: its length is their number and indexing it
    at [i] returns the [i]-th of them, untouched. *)
Theorem init_holds_the_given_spaces (cs : list child) (g0 : G) :
  exists self,
    TupleObj.init (map TupleObj.IsSpace cs) VNone g0
      = (Ok self, map TupleObj.IsSpace cs)
    /\ len self = length cs
    /\ forall i c,
         nth_error cs i = Some c ->
         TupleObj.getitem self (Z.of_nat i) = Ok c.
Proof.
  exists (Make cs g0). unfold TupleObj.init.
  rewrite assert_spaces_all. simpl. repeat split.
  intros i c Hi.
  assert (Hlt : i < length cs) by (apply nth_error_Some; congruence).
  destruct (tuple_index_in_range cs (Z.of_nat i)) as [x [E1 E2]]; [lia|].
  rewrite Z.mod_small, Nat2Z.id in E2 by lia.
  unfold TupleObj.getitem. simpl. congruence.
Qed.

End Identity.

Section Reseeding.

Context {D St G : Type} `{SpaceOps D St} `{BaseOps G}.

Local Abbreviation child := (@child D St).
Local Abbreviation tuple := (@t D St G).

Lemma seed_none_as_list (cs : list child) :
  forall (pre acc : list value),
    seed_each (pre ++ repeat VNone (length cs)) (length pre) cs acc =
    seed_none cs acc.
Proof.
  induction cs as [|c cs IH]; intros pre acc; simpl; [reflexivity|].
  rewrite nth_error_app2 by lia. rewrite Nat.sub_diag. simpl.
  destruct (sp_seed (desc c) VNone (prng c)) as [[out|e] p]; [|reflexivity].
  specialize (IH (pre ++ [VNone]) (acc ++ out)).
  rewrite <- app_assoc, length_app, Nat.add_1_r in IH. simpl in IH.
  now rewrite IH.
Qed.

(** Seeding with [None] is seeding with the list that holds [None] once
    for every child: the two branches of [seed] return the same list and
    leave the same state, also when a child raises. *)
Theorem seed_None_is_seed_list_of_Nones (self : tuple) :
  seed VNone self = seed (VList (repeat VNone (len self))) self.
Proof.
  unfold seed, len.
  pose proof (seed_none_as_list (spaces self) [] []) as E. simpl in E.
  now rewrite E.
Qed.

(** Two composites over the same children seeded with the same integer:
    the same outcome, and after a successful call the same state. *)
Lemma seed_int_forgets (t1 t2 : tuple) (s : Z) :
  (forall g g', Space_seed (VInt s) g = Space_seed (VInt s) g') ->
  (forall d k p p', sp_seed d (VInt k) p = sp_seed d (VInt k) p') ->
  (forall a n r g l g', choice a n r g = (Ok l, g') -> length l = n) ->
  descs t1 = descs t2 ->
  fst (seed (VInt s) t1) = fst (seed (VInt s) t2)
  /\ (forall l, fst (seed (VInt s) t1) = Ok l ->
      snd (seed (VInt s) t1) = snd (seed (VInt s) t2)).
Proof.
  intros Hbase Hchild Hsize Hd. unfold descs in Hd. unfold seed.
  rewrite (Hbase (np_random t2) (np_random t1)).
  destruct (Space_seed (VInt s) (np_random t1)) as [[seeds|e] g];
    [|split; [reflexivity | discriminate]].
  assert (Hn : length (spaces t2) = length (spaces t1))
    by (rewrite <- (length_map desc (spaces t2)), <- Hd; apply length_map).
  rewrite Hn.
  destruct (draw_subseeds (length (spaces t1)) g) as [[subs|e] g'] eqn:Edraw;
    [|split; [reflexivity | discriminate]].
  pose proof (TupleSpec.draw_subseeds_size _ _ _ _ Hsize Edraw) as Hlen.
  destruct (TupleSpec.seed_subspaces_forgets (spaces t1) Hchild (spaces t2)
              subs seeds Hd Hlen) as [E1 E2].
  destruct (seed_subspaces (spaces t1) subs seeds) as [r1 rest1].
  destruct (seed_subspaces (spaces t2) subs seeds) as [r2 rest2].
  simpl in *. split; [assumption|]. intros l Hl. now rewrite (E2 l Hl).
Qed.

(** Replaying a seed on one composite: seeding with an integer and
    sampling, and then doing both again on the same object, gives the same
    seeds and the same sample the second time. *)
Theorem seed_then_sample_replays (self : tuple) (s : Z) :
  (forall g g', Space_seed (VInt s) g = Space_seed (VInt s) g') ->
  (forall d k p p', sp_seed d (VInt k) p = sp_seed d (VInt k) p') ->
  (forall a n r g l g', choice a n r g = (Ok l, g') -> length l = n) ->
  seed_then_sample (VInt s) (snd (sample (snd (seed (VInt s) self)))) =
  seed_then_sample (VInt s) self.
Proof.
  intros Hbase Hchild Hsize.
  set (later := snd (sample (snd (seed (VInt s) self)))).
  assert (Hd : descs self = descs later)
    by (unfold later; now rewrite sample_descs, seed_descs).
  destruct (seed_int_forgets self later s Hbase Hchild Hsize Hd) as [E1 E2].
  unfold seed_then_sample.
  destruct (seed (VInt s) self) as [r1 s1], (seed (VInt s) later) as [r2 s2].
  simpl in *. subst r2. destruct r1 as [l|e]; [|reflexivity].
  now rewrite (E2 l eq_refl).
Qed.

End Reseeding.

Section Nesting.

Context {D St G : Type} `{SpaceOps D St} `{BaseOps G}.

Local Abbreviation inner := (@t D St G).
Local Abbreviation outer := (@t inner inner G).

Lemma nested_seed_none_run (cs : list (@Tuple.child inner inner)) :
  forall (lss : list (list (list value))) (acc : list value),
    Forall2 (fun c ls => Forall2 seeds_none (spaces (prng c)) ls) cs lss ->
    fst (@seed_none _ _ TupleObj.nested_ops cs acc)
    = Ok (acc ++ concat (map (@concat value) lss)).
Proof.
  induction cs as [|c cs IH]; intros lss acc HF;
    inversion HF as [|? ls ? lss' Hc HF']; subst; simpl.
  - now rewrite app_nil_r.
  - rewrite (TupleSpec.seed_none_run _ ls [] Hc). simpl.
    specialize (IH lss' (acc ++ concat ls) HF').
    destruct (@seed_none _ _ TupleObj.nested_ops cs (acc ++ concat ls))
      as [r rest].
    simpl in *. rewrite IH. now rewrite app_assoc.
Qed.

(** A composite of composites seeded with [None] returns one flat list:
    the seed lists of all the leaves, in order, with no trace of the
    nesting. *)
Theorem nested_seed_None_flattens (self : outer)
    (lss : list (list (list value))) :
  Forall2 (fun c ls => Forall2 seeds_none (spaces (prng c)) ls)
          (spaces self) lss ->
  fst (@seed _ _ _ TupleObj.nested_ops _ VNone self)
  = Ok (concat (map (@concat value) lss)).
Proof.
  intros HF. unfold seed.
  pose proof (nested_seed_none_run (spaces self) lss [] HF) as E.
  destruct (@seed_none _ _ TupleObj.nested_ops (spaces self) []) as [r cs].
  exact E.
Qed.

End Nesting.
End TupleLaws.

(** ** Properties of the test helpers *)

Module UtilsLaws.
Import Utils.

Section AssertEquals.

Variables K Ty X Arr : Type.
Variable key_eqb : K -> K -> bool.
Variable type_eqb : Ty -> Ty -> bool.
Variable value_eqb : X -> X -> bool.
Variable array_equal : Arr -> Arr -> bool.

Local Abbreviation obj := (obj K Ty X Arr).
Local Abbreviation check :=
  (assert_equals K Ty X Arr key_eqb type_eqb value_eqb array_equal).

Lemma check_tuple_cons (x y : obj) (xs ys : list obj) :
  check (OTuple _ _ _ _ (x :: xs)) (OTuple _ _ _ _ (y :: ys)) =
    match check x y with
    | Passed => check (OTuple _ _ _ _ xs) (OTuple _ _ _ _ ys)
    | Failed f => Failed f
    end.
Proof. reflexivity. Qed.

Lemma check_tuple_nil_r (xs : list obj) :
  check (OTuple _ _ _ _ xs) (OTuple _ _ _ _ []) = Passed.
Proof. now destruct xs. Qed.

Lemma check_tuple_tail_r (xs : list obj) :
  forall ys extra,
    length xs <= length ys ->
    check (OTuple _ _ _ _ xs) (OTuple _ _ _ _ (ys ++ extra)) =
    check (OTuple _ _ _ _ xs) (OTuple _ _ _ _ ys).
Proof.
  induction xs as [|x xs IH]; intros ys extra Hlen; [reflexivity|].
  destruct ys as [|y ys]; simpl in Hlen; [lia|].
  change ((y :: ys) ++ extra) with (y :: (ys ++ extra)).
  rewrite !check_tuple_cons. destruct (check x y); [|reflexivity].
  apply IH. lia.
Qed.

Lemma check_tuple_tail_l (xs : list obj) :
  forall ys extra,
    length ys <= length xs ->
    check (OTuple _ _ _ _ (xs ++ extra)) (OTuple _ _ _ _ ys) =
    check (OTuple _ _ _ _ xs) (OTuple _ _ _ _ ys).
Proof.
  induction xs as [|x xs IH]; intros ys extra Hlen.
  - destruct ys; simpl in Hlen; [|lia]. simpl app.
    now rewrite check_tuple_nil_r.
  - destruct ys as [|y ys]; [now rewrite !check_tuple_nil_r|].
    simpl in Hlen. change ((x :: xs) ++ extra) with (x :: (xs ++ extra)).
    rewrite !check_tuple_cons. destruct (check x y); [|reflexivity].
    apply IH. lia.
Qed.

(** [assert_equals] never compares the lengths of two tuples: it walks
    them in step and stops with the shorter, so whatever one tuple holds
    beyond the length of the other is not looked at. *)
Theorem assert_equals_ignores_tuple_tails (xs ys extra : list obj) :
  length xs = length ys ->
  check (OTuple _ _ _ _ (xs ++ extra)) (OTuple _ _ _ _ ys) =
    check (OTuple _ _ _ _ xs) (OTuple _ _ _ _ ys)
  /\ check (OTuple _ _ _ _ xs) (OTuple _ _ _ _ (ys ++ extra)) =
    check (OTuple _ _ _ _ xs) (OTuple _ _ _ _ ys).
Proof.
  intros Hlen. split.
  - apply check_tuple_tail_l. lia.
  - apply check_tuple_tail_r. lia.
Qed.

Section Induction.

Variable P : obj -> Prop.
Hypothesis Hdict :
  forall items, Forall (fun kv => P (snd kv)) items -> P (ODict _ _ _ _ items).
Hypothesis Harray : forall a, P (ONdarray _ _ _ _ a).
Hypothesis Htuple : forall items, Forall P items -> P (OTuple _ _ _ _ items).
Hypothesis Hother : forall ty x, P (OOther _ _ _ _ ty x).

(** Induction on an object through its dictionaries and tuples. *)
Fixpoint obj_nested_ind (a : obj) : P a :=
  match a with
  | ODict _ _ _ _ items =>
      Hdict items
        ((fix go (l : list (K * obj)) : Forall (fun kv => P (snd kv)) l :=
            match l with
            | [] => Forall_nil _
            | kv :: r => Forall_cons kv (obj_nested_ind (snd kv)) (go r)
            end) items)
  | ONdarray _ _ _ _ x => Harray x
  | OTuple _ _ _ _ items =>
      Htuple items
        ((fix go (l : list obj) : Forall P l :=
            match l with
            | [] => Forall_nil _
            | v :: r => Forall_cons v (obj_nested_ind v) (go r)
            end) items)
  | OOther _ _ _ _ ty x => Hother ty x
  end.

End Induction.

Hypothesis key_eqb_eq : forall k k', key_eqb k k' = true <-> k = k'.
Hypothesis type_eqb_refl : forall ty, type_eqb ty ty = true.
Hypothesis value_eqb_refl : forall x, value_eqb x x = true.
Hypothesis array_equal_refl : forall a, array_equal a a = true.

Lemma keys_eqb_refl (ks : list K) : keys_eqb K key_eqb ks ks = true.
Proof.
  induction ks as [|k ks IH]; simpl; [reflexivity|].
  rewrite IH, andb_true_r. now apply key_eqb_eq.
Qed.

Lemma lookup_present (items : list (K * obj)) :
  NoDup (map fst items) ->
  forall k v, In (k, v) items -> lookup K Ty X Arr key_eqb k items = Some v.
Proof.
  induction items as [|[k0 v0] items IH]; intros Hnd k v Hin; [destruct Hin|].
  simpl in Hnd. inversion Hnd as [|? ? Hnotin Hnd']; subst. simpl.
  destruct Hin as [E|Hin].
  - injection E as <- <-.
    now replace (key_eqb k0 k0) with true by (symmetry; now apply key_eqb_eq).
  - destruct (key_eqb k k0) eqn:E; [|now apply IH].
    apply key_eqb_eq in E. subst k0. exfalso. apply Hnotin.
    change k with (fst (k, v)). now apply in_map.
Qed.

Lemma check_dict_items (items_b : list (K * obj)) :
  forall items,
    (forall k v, In (k, v) items ->
       lookup K Ty X Arr key_eqb k items_b = Some v) ->
    Forall (fun kv => check (snd kv) (snd kv) = Passed) items ->
    (fix each (items : list (K * obj)) : verdict :=
       match items with
       | [] => Passed
       | (k, v_a) :: rest =>
           match lookup K Ty X Arr key_eqb k items_b with
           | None => Failed KeyError
           | Some v_b =>
               match check v_a v_b with
               | Passed => each rest
               | Failed f => Failed f
               end
           end
       end) items = Passed.
Proof.
  induction items as [|[k v] items IH]; intros Hl HF; [reflexivity|].
  inversion HF as [|? ? Hv HF']; subst. simpl in Hv.
  rewrite (Hl k v (or_introl eq_refl)), Hv.
  apply IH; [|assumption]. intros k' v' Hin. apply Hl. now right.
Qed.

Lemma keys_once_items (items : list (K * obj)) :
  (fix all (items : list (K * obj)) : Prop :=
     match items with
     | [] => True
     | (_, v) :: rest => keys_once K Ty X Arr v /\ all rest
     end) items ->
  Forall (fun kv => keys_once K Ty X Arr (snd kv)) items.
Proof.
  induction items as [|[k v] items IH]; intros Hall; constructor.
  - exact (proj1 Hall).
  - exact (IH (proj2 Hall)).
Qed.

Lemma keys_once_elements (items : list obj) :
  (fix all (items : list obj) : Prop :=
     match items with
     | [] => True
     | v :: rest => keys_once K Ty X Arr v /\ all rest
     end) items ->
  Forall (keys_once K Ty X Arr) items.
Proof.
  induction items as [|v items IH]; intros Hall; constructor.
  - exact (proj1 Hall).
  - exact (IH (proj2 Hall)).
Qed.

(** [assert_equals(a, a)] passes on every object, as long as [==] is
    reflexive on the values inside it and its dictionaries have their keys
    once each. *)
Theorem assert_equals_is_reflexive (a : obj) :
  keys_once K Ty X Arr a -> check a a = Passed.
Proof.
  induction a as [items IH|x|items IH|ty x] using obj_nested_ind; intros Hk.
  - destruct Hk as [Hnd Hall]. apply keys_once_items in Hall.
    cbn [assert_equals]. rewrite keys_eqb_refl.
    apply check_dict_items.
    + now apply lookup_present.
    + rewrite Forall_forall in *. intros kv Hin. apply (IH kv Hin), (Hall kv Hin).
  - simpl. now rewrite array_equal_refl.
  - apply keys_once_elements in Hk.
    induction items as [|v items IHitems]; [reflexivity|].
    inversion IH as [|? ? IHv IH']; subst.
    inversion Hk as [|? ? Hv Hk']; subst.
    rewrite check_tuple_cons, (IHv Hv). now apply IHitems.
  - simpl. now rewrite type_eqb_refl, value_eqb_refl.
Qed.

End AssertEquals.

Section Filters.

Lemma prefix_append_l (a b s : string) :
  String.prefix (String.append a b) s = true -> String.prefix a s = true.
Proof.
  revert s. induction a as [|c a IH]; intros s; simpl; [now destruct s|].
  destruct s as [|c' s]; [discriminate|]. simpl.
  destruct (Ascii.ascii_dec c c'); [apply IH | discriminate].
Qed.

Lemma str_in_append_l (a b s : string) :
  str_in (String.append a b) s = true -> str_in a s = true.
Proof.
  induction s as [|c s IH]; cbn [str_in]; rewrite !orb_true_iff.
  - intros [Hp | Hf]; [left; now apply (prefix_append_l a b) | discriminate].
  - intros [Hp | Hr]; [left; now apply (prefix_append_l a b) | right; now apply IH].
Qed.

Lemma not_selected (ep rest : string) :
  In ep ["box2d"; "classic_control"; "toy_text"] ->
  str_in "gym." rest = false ->
  str_in (String.append "gym." ep) (String.append "gym.envs." rest) = false.
Proof.
  intros Hin Hrest.
  assert (Htail : str_in (String.append "gym." ep) rest = false).
  { destruct (str_in (String.append "gym." ep) rest) eqn:E; [|reflexivity].
    apply str_in_append_l in E. congruence. }
  destruct Hin as [<-|[<-|[<-|[]]]]; simpl in *; exact Htail.
Qed.

(** [gym_testing_env_specs] looks for [gym.box2d], [gym.classic_control] and
    [gym.toy_text] in the entry points, so it selects no environment whose
    entry point is of the form [gym.envs.<...>] (with no further [gym.]
    in it), the classic-control, Box2D and toy-text ones included. *)
Theorem gym_testing_env_specs_misses_gym_envs (specs : list EnvSpec) :
  Forall (fun env_spec =>
            exists rest,
              entry_point env_spec = String.append "gym.envs." rest
              /\ str_in "gym." rest = false)
         specs ->
  gym_testing_env_specs specs = [].
Proof.
  unfold gym_testing_env_specs.
  induction 1 as [|env_spec specs [rest [E Hrest]] _ IH]; [reflexivity|].
  cbn [filter]. rewrite IH.
  replace (existsb _ _) with false; [reflexivity|].
  symmetry. cbn [existsb]. rewrite E.
  rewrite !(not_selected _ rest) by (simpl; auto). reflexivity.
Qed.

End Filters.
End UtilsLaws.

(** ** Runs on the composite of [Discrete(2)] and [Discrete(3)] *)

Module Runs.
Import Tuple.

Local Open Scope Z_scope.

Lemma seed_long_list_truncates_witness :
  seed (VList ([VInt 1; VInt 2] ++ [VInt 3])) two_three =
  seed (VList [VInt 1; VInt 2]) two_three.
Proof.
  exact (TupleSpec.seed_long_list_truncates two_three [VInt 1; VInt 2]
           [VInt 3] eq_refl).
Defined.

Lemma seed_list_seeds_each_child_witness :
  seed (VList [VInt 4; VInt 5]) two_three =
    (Ok [VInt 4; VInt 5], Make [Child 2 4; Child 3 5] 0).
Proof.
  assert (Hlen : (length (spaces two_three) <= length [VInt 4; VInt 5])%nat)
    by (simpl; lia).
  refine (TupleLaws.seed_list_seeds_each_child two_three [VInt 4; VInt 5]
            [[VInt 4]; [VInt 5]] Hlen _).
  repeat constructor.
Defined.

Lemma contains_stops_at_first_non_member_witness :
  @contains _ _ _ TupleObj.nested_ops nested_two_three
    (VTuple [VNdarray0 5])
  = Raise (TypeError "iteration over a 0-d array").
Proof.
  refine (proj2 (@TupleLaws.contains_stops_at_first_non_member
                   _ _ _ TupleObj.nested_ops nested_two_three
                   [] [] two_three [] [] (VNdarray0 5)
                   eq_refl eq_refl (Forall2_nil _)) _ eq_refl).
Defined.

Lemma from_jsonable_returns_full_tuples_witness :
  Forall (fun smp =>
            exists parts, smp = VTuple parts /\ length parts = len two_three)
         [VTuple [VInt 1; VInt 2]].
Proof.
  exact (TupleLaws.from_jsonable_returns_full_tuples two_three
           (VList [VList [VInt 1; VInt 0]; VList [VInt 2]])
           [VTuple [VInt 1; VInt 2]] eq_refl).
Defined.

Lemma from_jsonable_short_data_raises_witness :
  from_jsonable two_three (VList [VList [VInt 1]]) = Raise IndexError.
Proof.
  assert (Hlen : (length [VList [VInt 1]] < len two_three)%nat)
    by (unfold len; simpl; lia).
  refine (TupleLaws.from_jsonable_short_data_raises two_three
            [VList [VInt 1]] Hlen _).
  constructor; [exists [VInt 1]; reflexivity | constructor].
Defined.

Lemma to_jsonable_short_sample_raises_witness :
  to_jsonable two_three (map VTuple [[VInt 1; VInt 2]; [VInt 0]])
  = Raise IndexError.
Proof.
  refine (TupleLaws.to_jsonable_short_sample_raises two_three
            [[VInt 1; VInt 2]; [VInt 0]] _ _).
  - intros d col _. exists (VList col). reflexivity.
  - right. left. unfold len. simpl. lia.
Defined.

Lemma to_jsonable_is_column_major_witness :
  exists js,
    VList [VList [VInt 1; VInt 0]; VList [VInt 2; VInt 1]] = VList js
    /\ length js = len two_three
    /\ forall k d,
         nth_error (descs two_three) k = Some d ->
         exists col jk,
           column k [VTuple [VInt 1; VInt 2]; VTuple [VInt 0; VInt 1]] = Ok col
           /\ sp_to_jsonable d col = Ok jk
           /\ nth_error js k = Some jk.
Proof.
  exact (TupleLaws.to_jsonable_is_column_major two_three
           [VTuple [VInt 1; VInt 2]; VTuple [VInt 0; VInt 1]]
           (VList [VList [VInt 1; VInt 0]; VList [VInt 2; VInt 1]]) eq_refl).
Defined.

Lemma roundtrip_promotes_samples_to_tuples_witness :
  exists j rows,
    to_jsonable two_three [VList [VInt 1; VInt 2]; VTuple [VInt 0; VInt 1]]
      = Ok j
    /\ Forall2 (fun smp row => promote smp = Ok (VTuple row))
               [VList [VInt 1; VInt 2]; VTuple [VInt 0; VInt 1]] rows
    /\ from_jsonable two_three j = Ok (map VTuple rows).
Proof.
  apply (TupleLaws.roundtrip_promotes_samples_to_tuples two_three).
  - left. discriminate.
  - repeat constructor; intros col _; exists (VList col); split; reflexivity.
  - repeat constructor.
Defined.

Lemma init_rejects_non_spaces_witness :
  TupleObj.init [TupleObj.IsSpace (Child 2 0); TupleObj.NotSpace (VInt 3)]
    (VInt 0) 0
  = (Raise (AssertionError "Elements of the tuple must be instances of gym.Space"),
     [TupleObj.IsSpace (Child 2 0); TupleObj.NotSpace (VInt 3)]).
Proof.
  apply (TupleLaws.init_rejects_non_spaces _ (VInt 3)).
  right. left. reflexivity.
Defined.

Lemma assert_equals_ignores_tuple_tails_witness :
  assert_equals_on_ints
    (Utils.OTuple _ _ _ _ ([Utils.OOther _ _ _ _ "int" 1]
                           ++ [Utils.OOther _ _ _ _ "int" 2]))
    (Utils.OTuple _ _ _ _ [Utils.OOther _ _ _ _ "int" 1])
  = assert_equals_on_ints
      (Utils.OTuple _ _ _ _ [Utils.OOther _ _ _ _ "int" 1])
      (Utils.OTuple _ _ _ _ [Utils.OOther _ _ _ _ "int" 1]).
Proof.
  refine (proj1 (UtilsLaws.assert_equals_ignores_tuple_tails
                   string string Z (list Z) String.eqb String.eqb Z.eqb _
                   [Utils.OOther _ _ _ _ "int" 1]
                   [Utils.OOther _ _ _ _ "int" 1]
                   [Utils.OOther _ _ _ _ "int" 2] eq_refl)).
Defined.

Lemma assert_equals_is_reflexive_witness :
  assert_equals_on_ints
    (Utils.ODict _ _ _ _
       [("obs"%string,
         Utils.OTuple _ _ _ _
           [Utils.OOther _ _ _ _ "int" 1; Utils.ONdarray _ _ _ _ [1; 2]])])
    (Utils.ODict _ _ _ _
       [("obs"%string,
         Utils.OTuple _ _ _ _
           [Utils.OOther _ _ _ _ "int" 1; Utils.ONdarray _ _ _ _ [1; 2]])])
  = Utils.Passed.
Proof.
  apply (UtilsLaws.assert_equals_is_reflexive
           string string Z (list Z) String.eqb String.eqb Z.eqb _).
  - exact String.eqb_eq.
  - exact String.eqb_refl.
  - exact Z.eqb_refl.
  - intros a. destruct (list_eq_dec Z.eq_dec a a); [reflexivity | congruence].
  - simpl. repeat split. constructor; [intros [] | constructor].
Defined.

Lemma gym_testing_env_specs_misses_gym_envs_witness :
  Utils.gym_testing_env_specs [cart_pole] = [].
Proof.
  apply UtilsLaws.gym_testing_env_specs_misses_gym_envs.
  constructor; [|constructor].
  exists "classic_control.cartpole:CartPoleEnv"%string. split; reflexivity.
Defined.

Lemma counter_choice_size (a : Z) (n : nat) (r : bool) (g : Z) (l : list Z)
    (g' : Z) :
  choice a n r g = (Ok l, g') -> length l = n.
Proof.
  simpl. unfold Counter.choice.
  destruct (negb r && (a <? Z.of_nat n)); intros E; [discriminate|].
  injection E as <- _. now rewrite length_map, length_seq.
Qed.

Lemma seed_then_sample_replays_witness :
  seed_then_sample (VInt 0) (snd (sample (snd (seed (VInt 0) two_three)))) =
  seed_then_sample (VInt 0) two_three.
Proof.
  apply (TupleLaws.seed_then_sample_replays two_three 0).
  - reflexivity.
  - reflexivity.
  - exact counter_choice_size.
Defined.

Lemma nested_seed_None_flattens_witness :
  fst (@seed _ _ _ TupleObj.nested_ops _ VNone nested_two_three)
  = Ok [VInt 1; VInt 1].
Proof.
  refine (TupleLaws.nested_seed_None_flattens nested_two_three
            [[[VInt 1]; [VInt 1]]] _).
  repeat constructor.
Defined.

End Runs.

(** ** Properties of the composite over shared children *)

Module SharedLaws.
Import Shared.

Section Heap.

Context {D St G : Type} `{SpaceOps D St} `{BaseOps G}.

Local Abbreviation child := (@Tuple.child D St).
Local Abbreviation heap := (@Shared.heap D St).
Local Abbreviation shared := (@Shared.t G).



















Lemma sample_keeps_length (t0 : @Tuple.t D St G) :
  length (Tuple.spaces (snd (Tuple.sample t0))) = length (Tuple.spaces t0).
Proof.
  pose proof (TupleLaws.sample_descs t0) as E. unfold Tuple.descs in E.
  rewrite <- (length_map Tuple.desc), E. apply length_map.
Qed.









End Heap.
End SharedLaws.

(** ** Runs on shared and unshared [Discrete(2)] objects *)

Module SharedRuns.

Local Open Scope Z_scope.


Lemma discrete_seeds_alike (h1 h2 : @Shared.heap Z Z) (r1 r2 : nat) :
  Tuple.desc (h1 r1) = Tuple.desc (h2 r2) ->
  Shared.seeds_alike (h1 r1) (h2 r2).
Proof.
  intros Hd. split; [assumption|]. intros k. simpl. now split.
Qed.




Lemma repr_tells_children_apart_witness :
  map discrete_str (Tuple.descs two_three)
  = map discrete_str
      (Tuple.descs (Tuple.Make [Tuple.Child 2 5; Tuple.Child 3 9] 4)).
Proof.
  assert (Hfree : forall t : @Tuple.t Z Z Z,
             Tuple.descs t = [2; 3] ->
             Forall (fun d => TupleObj.comma_free (discrete_str d)
                              /\ discrete_str d <> EmptyString)
                    (Tuple.descs t)).
  { intros t ->. repeat constructor; simpl; repeat split; discriminate. }
  exact (TupleLaws.repr_tells_children_apart discrete_str two_three
           (Tuple.Make [Tuple.Child 2 5; Tuple.Child 3 9] 4)
           (Hfree two_three eq_refl)
           (Hfree (Tuple.Make [Tuple.Child 2 5; Tuple.Child 3 9] 4) eq_refl)
           eq_refl).
Defined.

End SharedRuns.
